(** * sync_folders.py: one-way folder synchronisation

    A shallow embedding of [src/sync_folders.py] and the properties of its
    reconciliation algorithm.

    - [MD5]: the digest computed by [hashlib.md5] (RFC 1321), with the
      incremental [update]/[hexdigest] interface the script uses.
    - [OS]: the part of the operating system the script talks to: a file
      system (a finite map from absolute paths to entries) with the calls
      [os.path.exists], [os.scandir], [os.makedirs], [shutil.copy2],
      [shutil.rmtree], [os.remove] and [open(...).read], each raising the
      [OSError] the real call raises.
    - the script itself: [calculate_md5], [sync_folders] and [main], written
      in a state-and-exception monad over the file system and the log. *)

From Stdlib Require Import ZArith Strings.Byte Strings.Ascii.
From stdpp Require Import gmap strings list fin_maps fin_sets.

Local Open Scope Z_scope.

(** ** MD5 *)

Module MD5.

Definition mask32 (x : Z) : Z := Z.land x 0xffffffff.
Definition add32 (x y : Z) : Z := mask32 (x + y).
Definition not32 (x : Z) : Z := Z.lxor x 0xffffffff.
Definition rotl32 (x c : Z) : Z :=
  mask32 (Z.lor (Z.shiftl x c) (Z.shiftr x (32 - c))).

(** Per-round shift amounts. *)
Definition shifts : list Z :=
  [ 7; 12; 17; 22; 7; 12; 17; 22; 7; 12; 17; 22; 7; 12; 17; 22;
    5; 9; 14; 20; 5; 9; 14; 20; 5; 9; 14; 20; 5; 9; 14; 20;
    4; 11; 16; 23; 4; 11; 16; 23; 4; 11; 16; 23; 4; 11; 16; 23;
    6; 10; 15; 21; 6; 10; 15; 21; 6; 10; 15; 21; 6; 10; 15; 21 ].

(** [floor (2^32 * abs (sin (i + 1)))] for [i] in [0..63]. *)
Definition sines : list Z :=
  [ 3614090360; 3905402710; 606105819; 3250441966; 4118548399; 1200080426;
    2821735955; 4249261313; 1770035416; 2336552879; 4294925233; 2304563134;
    1804603682; 4254626195; 2792965006; 1236535329; 4129170786; 3225465664;
    643717713; 3921069994; 3593408605; 38016083; 3634488961; 3889429448;
    568446438; 3275163606; 4107603335; 1163531501; 2850285829; 4243563512;
    1735328473; 2368359562; 4294588738; 2272392833; 1839030562; 4259657740;
    2763975236; 1272893353; 4139469664; 3200236656; 681279174; 3936430074;
    3572445317; 76029189; 3654602809; 3873151461; 530742520; 3299628645;
    4096336452; 1126891415; 2878612391; 4237533241; 1700485571; 2399980690;
    4293915773; 2240044497; 1873313359; 4264355552; 2734768916; 1309151649;
    4149444226; 3174756917; 718787259; 3951481745 ].

Definition byte_val (b : byte) : Z := Z.of_N (Byte.to_N b).

(** Little-endian 32-bit word of (at most) four bytes. *)
Definition word_of_bytes (bs : list byte) : Z :=
  foldr (fun b acc => byte_val b + 256 * acc) 0 bs.

Fixpoint words_of_bytes (n : nat) (bs : list byte) : list Z :=
  match n with
  | O => []
  | S n' => word_of_bytes (take 4 bs) :: words_of_bytes n' (drop 4 bs)
  end.

Definition byte_of_Z (z : Z) : byte :=
  default x00 (Byte.of_N (Z.to_N (Z.land z 0xff))).

Fixpoint bytes_of_word (n : nat) (w : Z) : list byte :=
  match n with
  | O => []
  | S n' => byte_of_Z w :: bytes_of_word n' (Z.shiftr w 8)
  end.

Record chain := Chain { cA : Z; cB : Z; cC : Z; cD : Z }.

Definition initial_chain : chain :=
  Chain 0x67452301 0xefcdab89 0x98badcfe 0x10325476.

(** One of the 64 steps on the block [m] (sixteen words). *)
Definition step (m : list Z) (c : chain) (i : nat) : chain :=
  let '(Chain a b c' d) := c in
  let '(f, g) :=
    if (i <? 16)%nat then
      (Z.lor (Z.land b c') (Z.land (not32 b) d), i)
    else if (i <? 32)%nat then
      (Z.lor (Z.land d b) (Z.land (not32 d) c'), ((5 * i + 1) mod 16)%nat)
    else if (i <? 48)%nat then
      (Z.lxor (Z.lxor b c') d, ((3 * i + 5) mod 16)%nat)
    else
      (Z.lxor c' (Z.lor b (not32 d)), ((7 * i) mod 16)%nat) in
  let f' := add32 (add32 (add32 f a) (sines !!! i)) (m !!! g) in
  Chain d (add32 b (rotl32 f' (shifts !!! i))) b c'.

Definition compress (c : chain) (block : list byte) : chain :=
  let m := words_of_bytes 16 block in
  let '(Chain a b c' d) := foldl (step m) c (seq 0 64) in
  Chain (add32 (cA c) a) (add32 (cB c) b) (add32 (cC c) c') (add32 (cD c) d).

(** Feed the first [n] 64-byte blocks of [bs]; return what is left. *)
Fixpoint absorb (n : nat) (c : chain) (bs : list byte) : chain * list byte :=
  match n with
  | O => (c, bs)
  | S n' => absorb n' (compress c (take 64 bs)) (drop 64 bs)
  end.

(** The object returned by [hashlib.md5()]: chaining value, bytes not yet
    compressed (fewer than 64) and number of bytes seen so far. *)
Record state := State { chaining : chain; pending : list byte; seen : Z }.

Definition new : state := State initial_chain [] 0.

Definition update (s : state) (data : list byte) : state :=
  let buf := pending s ++ data in
  let '(c, rest) := absorb (length buf / 64) (chaining s) buf in
  State c rest (seen s + Z.of_nat (length data)).

Definition padding (len : Z) : list byte :=
  let zeros := Z.to_nat ((55 - len) mod 64) in
  x80 :: replicate zeros x00 ++ bytes_of_word 8 (8 * len).

Definition digest (s : state) : list byte :=
  let buf := pending s ++ padding (seen s) in
  let '(Chain a b c d) := fst (absorb (length buf / 64) (chaining s) buf) in
  bytes_of_word 4 a ++ bytes_of_word 4 b ++ bytes_of_word 4 c ++ bytes_of_word 4 d.

Definition hex_digit (z : Z) : Ascii.ascii :=
  default "0"%char
    (String.get (Z.to_nat z) "0123456789abcdef"%string).

Definition hex_of_byte (b : byte) (rest : string) : string :=
  String (hex_digit (byte_val b / 16))
    (String (hex_digit (byte_val b mod 16)) rest).

Definition hexdigest (s : state) : string :=
  foldr hex_of_byte EmptyString (digest s).

End MD5.


(** ** The operating system *)

Abbreviation path := (list string).

(** What [os.stat] reports and [shutil.copystat] copies. *)
Record stat_info := Stat { st_mode : Z; st_mtime : Z }.

Inductive entry :=
| File (data : list byte) (meta : stat_info)
| Dir.

(** The file system: absolute paths, as lists of names from the root, to
    entries.  The root is the key [[]]. *)
Abbreviation filesystem := (gmap (list string) entry).

Inductive errno := EINVAL | EBUSY | ENOTEMPTY.

(** The exceptions the script can meet; all but [ValueError] are subclasses
    of [OSError] (of which [IOError] is an alias). *)
Inductive exn :=
| FileNotFoundError (p : path)
| NotADirectoryError (p : path)
| IsADirectoryError (p : path)
| FileExistsError (p : path)
| OSError (code : errno) (p : path)
| SameFileError (src dst : path)
| ValueError.

Inductive res (A : Type) :=
| Ret (a : A)
| Err (e : exn).
Arguments Ret {A} a.
Arguments Err {A} e.

#[global] Instance stat_info_eq_dec : EqDecision stat_info.
Proof. solve_decision. Defined.
#[global] Instance byte_eq_dec : EqDecision byte := Byte.byte_eq_dec.
#[global] Instance entry_eq_dec : EqDecision entry.
Proof. solve_decision. Defined.
#[global] Instance errno_eq_dec : EqDecision errno.
Proof. solve_decision. Defined.
#[global] Instance exn_eq_dec : EqDecision exn.
Proof. solve_decision. Defined.

Module OS.

(** *** [os.path] *)

Definition curdir : string := ".".
Definition pardir : string := "..".

(** [os.path.join a b] for a relative [b]. *)
Definition join (a b : path) : path := a ++ b.

Definition basename (p : path) : string := List.last p "".

(** Where one more component leads, lexically. *)
Definition descend (cur : path) (c : string) : path :=
  if decide (c = curdir) then cur
  else if decide (c = pardir) then removelast cur
  else cur ++ [c].

Definition normpath (p : path) : path := foldl descend [] p.

(** Drop the longest common prefix of two paths. *)
Fixpoint strip_common (p start : path) : path * path :=
  match p, start with
  | c :: p', d :: start' =>
      if decide (c = d) then strip_common p' start' else (p, start)
  | _, _ => (p, start)
  end.

Definition relpath (p start : path) : path :=
  let '(path_list, start_list) := strip_common (normpath p) (normpath start) in
  let rel_list := replicate (length start_list) pardir ++ path_list in
  match rel_list with
  | [] => [curdir]
  | _ => rel_list
  end.

(** *** Path resolution

    The kernel walks a path one component at a time; every component is
    looked up in a directory, so the entry reached so far has to be one. *)
Fixpoint resolve_from (fs : filesystem) (orig cur p : path) : res path :=
  match p with
  | [] => Ret cur
  | c :: rest =>
      match fs !! cur with
      | Some Dir => resolve_from fs orig (descend cur c) rest
      | Some (File _ _) => Err (NotADirectoryError orig)
      | None => Err (FileNotFoundError orig)
      end
  end.

Definition resolve (fs : filesystem) (p : path) : res path :=
  resolve_from fs p [] p.

(** [os.stat]: the key the path names and the entry there. *)
Definition stat (fs : filesystem) (p : path) : res (path * entry) :=
  match resolve fs p with
  | Err e => Err e
  | Ret k =>
      match fs !! k with
      | Some e => Ret (k, e)
      | None => Err (FileNotFoundError p)
      end
  end.

(** [os.path.exists] and [os.path.isdir] turn every [OSError] into [False]. *)
Definition path_exists (fs : filesystem) (p : path) : bool :=
  match stat fs p with Ret _ => true | Err _ => false end.

Definition isdir (fs : filesystem) (p : path) : bool :=
  match stat fs p with Ret (_, Dir) => true | _ => false end.

Definition samefile (fs : filesystem) (p q : path) : bool :=
  match stat fs p, stat fs q with
  | Ret (k, _), Ret (k', _) => bool_decide (k = k')
  | _, _ => false
  end.

(** *** Directory listing *)

Fixpoint strip_prefix (k key : path) : option path :=
  match k, key with
  | [], _ => Some key
  | c :: k', d :: key' => if decide (c = d) then strip_prefix k' key' else None
  | _ :: _, [] => None
  end.

Definition child_of (k : path) (item : path * entry) : option (string * entry) :=
  match strip_prefix k item.1 with
  | Some [name] => Some (name, item.2)
  | _ => None
  end.

Definition children (fs : filesystem) (k : path) : list (string * entry) :=
  omap (child_of k) (map_to_list fs).

(** [os.scandir]: the entries of a directory, in the order the file system
    yields them. *)
Definition scandir (fs : filesystem) (p : path) : res (list (string * entry)) :=
  match stat fs p with
  | Err e => Err e
  | Ret (_, File _ _) => Err (NotADirectoryError p)
  | Ret (k, Dir) => Ret (children fs k)
  end.

Definition entry_is_dir (item : string * entry) : bool :=
  match item.2 with Dir => true | File _ _ => false end.

(** *** System calls that change the file system *)

Definition mkdir (fs : filesystem) (p : path) : res filesystem :=
  match resolve fs p with
  | Err e => Err e
  | Ret k =>
      match fs !! k with
      | Some _ => Err (FileExistsError p)
      | None => Ret (<[k:=Dir]> fs)
      end
  end.

(** [os.remove] (unlink). *)
Definition remove (fs : filesystem) (p : path) : res filesystem :=
  match stat fs p with
  | Err e => Err e
  | Ret (_, Dir) => Err (IsADirectoryError p)
  | Ret (k, File _ _) => Ret (delete k fs)
  end.

Definition rmdir (fs : filesystem) (p : path) : res filesystem :=
  if decide (basename p = curdir) then Err (OSError EINVAL p)
  else if decide (basename p = pardir) then Err (OSError ENOTEMPTY p)
  else
    match stat fs p with
    | Err e => Err e
    | Ret (_, File _ _) => Err (NotADirectoryError p)
    | Ret (k, Dir) =>
        match k, children fs k with
        | [], _ => Err (OSError EBUSY p)
        | _, [] => Ret (delete k fs)
        | _, _ => Err (OSError ENOTEMPTY p)
        end
    end.

(** [open(p, "rb")]: the bytes the file object will deliver. *)
Definition open_rb (fs : filesystem) (p : path) : res (list byte) :=
  match stat fs p with
  | Err e => Err e
  | Ret (_, Dir) => Err (IsADirectoryError p)
  | Ret (_, File data _) => Ret data
  end.

(** Everything strictly below the directory [k] is gone. *)
Definition purge (k : path) (fs : filesystem) : filesystem :=
  filter (fun item => ¬ (k `prefix_of` item.1 ∧ item.1 ≠ k)) fs.

(** [shutil.copyfile] followed by [shutil.copystat]: [src] is opened for
    reading, then [dst] for writing (created or truncated), the bytes are
    copied, and mode and times are set from [src]. *)
Definition copyfile_stat (fs : filesystem) (src dst : path) : res filesystem :=
  if samefile fs src dst then Err (SameFileError src dst)
  else
    match stat fs src with
    | Err e => Err e
    | Ret (_, Dir) => Err (IsADirectoryError src)
    | Ret (_, File data meta) =>
        match resolve fs dst with
        | Err e => Err e
        | Ret k =>
            match fs !! k with
            | Some Dir => Err (IsADirectoryError dst)
            | _ => Ret (<[k:=File data meta]> fs)
            end
        end
    end.

(** [shutil.copy2]. *)
Definition copy2 (fs : filesystem) (src dst : path) : res filesystem :=
  let dst := if isdir fs dst then join dst [basename src] else dst in
  copyfile_stat fs src dst.

End OS.

(** ** The process: file system, log, exceptions *)

(** What the process does that can be observed from outside: the lines it
    logs and the time it sleeps.  (The log file itself is kept outside the
    modelled file system.) *)
Inductive event :=
| DirCreated (replica_dir : path)
| FileCopied (src_file replica_file : path)
| DirRemoved (dirpath : path)
| FileRemoved (replica_file : path)
| SyncStarting (number max_syncs : Z)
| SyncCompleted (number interval : Z)
| ReachedMaximum
| Slept (seconds : Z).

#[global] Instance event_eq_dec : EqDecision event.
Proof. solve_decision. Defined.

Record world := World { files : filesystem; journal : list event }.

Inductive outcome (A : Type) :=
| Done (a : A)
| Raised (e : exn)
| OutOfFuel.
Arguments Done {A} a.
Arguments Raised {A} e.
Arguments OutOfFuel {A}.

(** A computation runs in a world, ends normally or with an exception, and
    leaves the world as it was at that moment: nothing is rolled back. *)
Definition M (A : Type) : Type := world → outcome A * world.

#[global] Instance M_ret : MRet M := λ A a w, (Done a, w).
#[global] Instance M_bind : MBind M := λ A B f m w,
  match m w with
  | (Done a, w') => f a w'
  | (Raised e, w') => (Raised e, w')
  | (OutOfFuel, w') => (OutOfFuel, w')
  end.

Definition raise {A} (e : exn) : M A := λ w, (Raised e, w).
Definition out_of_fuel {A} : M A := λ w, (OutOfFuel, w).

(** [try: m except OSError-of-this-kind: handler]. *)
Definition try_except {A} (m : M A) (handles : exn → bool) (handler : M A) : M A :=
  λ w, match m w with
       | (Raised e, w') => if handles e then handler w' else (Raised e, w')
       | r => r
       end.

(** A query of the file system. *)
Definition ask {A} (q : filesystem → A) : M A := λ w, (Done (q (files w)), w).

(** A query that may raise. *)
Definition call {A} (q : filesystem → res A) : M A := λ w,
  match q (files w) with
  | Ret a => (Done a, w)
  | Err e => (Raised e, w)
  end.

(** A system call that changes the file system. *)
Definition syscall (f : filesystem → res filesystem) : M unit := λ w,
  match f (files w) with
  | Ret fs' => (Done tt, World fs' (journal w))
  | Err e => (Raised e, w)
  end.

Definition update_files (f : filesystem → filesystem) : M unit := λ w,
  (Done tt, World (f (files w)) (journal w)).

Definition emit (e : event) : M unit := λ w,
  (Done tt, World (files w) (journal w ++ [e])).

(** [for x in l: body x]. *)
Fixpoint for_each {A} (l : list A) (body : A → M unit) : M unit :=
  match l with
  | [] => mret tt
  | x :: l' => body x ;; for_each l' body
  end.

Module Lib.

Definition is_FileExistsError (e : exn) : bool :=
  match e with FileExistsError _ => true | _ => false end.

(** [os.makedirs name], with the arguments in reverse ([tail] first):
<<
    head, tail = path.split(name)
    if head and tail and not path.exists(head):
        try:
            makedirs(head, exist_ok=exist_ok)
        except FileExistsError:
            pass
        if tail == curdir:
            return
    mkdir(name, mode)
>>
    ([exist_ok] is false, so an error of [mkdir] is raised again.) *)
Fixpoint makedirs_rev (rname : list string) : M unit :=
  let name := rev rname in
  match rname with
  | [] => syscall (λ fs, OS.mkdir fs name)
  | tail :: rhead =>
      let head := rev rhead in
      head_exists ← ask (λ fs, OS.path_exists fs head);
      if negb head_exists then
        try_except (makedirs_rev rhead) is_FileExistsError (mret tt);;
        if decide (tail = OS.curdir) then mret tt
        else syscall (λ fs, OS.mkdir fs name)
      else syscall (λ fs, OS.mkdir fs name)
  end.

Definition makedirs (name : path) : M unit := makedirs_rev (rev name).

(** [shutil.rmtree]: the directory is emptied, then removed. *)
Definition rmtree (p : path) : M unit :=
  '(k, _) ← call (λ fs,
    match OS.stat fs p with
    | Ret (k, Dir) => Ret (k, Dir)
    | Ret (_, File _ _) => Err (NotADirectoryError p)
    | Err e => Err e
    end);
  update_files (OS.purge k);;
  syscall (λ fs, OS.rmdir fs p).

(** [os.walk top] (top-down, errors of [scandir] ignored, links not
    followed), with the body of the [for] loop that consumes it run where
    the generator yields:
<<
    stack = [top]
    while stack:
        top = stack.pop()
        try:
            scandir_it = scandir(top)
        except OSError as error:
            continue
        ... dirs, nondirs ...
        yield top, dirs, nondirs
        for dirname in reversed(dirs):
            stack.append(join(top, dirname))
>>
    The head of [stack] is the element popped next. *)
Fixpoint walk_loop (fuel : nat) (stack : list path)
    (body : path → list string → list string → M unit) : M unit :=
  match stack with
  | [] => mret tt
  | top :: stack' =>
      match fuel with
      | O => out_of_fuel
      | S fuel' =>
          listing ← ask (λ fs, OS.scandir fs top);
          match listing with
          | Err _ => walk_loop fuel' stack' body
          | Ret entries =>
              let dirs := (filter OS.entry_is_dir entries).*1 in
              let nondirs := (filter (λ e, negb (OS.entry_is_dir e)) entries).*1 in
              body top dirs nondirs;;
              walk_loop fuel' (((λ dirname, OS.join top [dirname]) <$> dirs) ++ stack') body
          end
      end
  end.

Definition walk (fuel : nat) (top : path)
    (body : path → list string → list string → M unit) : M unit :=
  walk_loop fuel [top] body.

Definition logging_info (e : event) : M unit := emit e.

(** [time.sleep]. *)
Definition sleep (seconds : Z) : M unit :=
  if seconds <? 0 then raise ValueError else emit (Slept seconds).

End Lib.

(** ** The script *)

(** [f.read(4096)] until it returns [b""]; a file of [n] bytes is read in at
    most [n] chunks, so [S n] rounds always reach the end. *)
Fixpoint read_chunks (rounds : nat) (f : list byte) (hash_md5 : MD5.state) : MD5.state :=
  match rounds with
  | O => hash_md5
  | S rounds' =>
      match take 4096 f with
      | [] => hash_md5
      | chunk => read_chunks rounds' (drop 4096 f) (MD5.update hash_md5 chunk)
      end
  end.

Definition md5_of (data : list byte) : string :=
  MD5.hexdigest (read_chunks (S (length data)) data MD5.new).

Definition calculate_md5 (file_path : path) : M string :=
  f ← call (λ fs, OS.open_rb fs file_path);
  mret (md5_of f).

Section sync_folders.

Variables source replica : path.

(** Lines 53-58: one file of the forward pass. *)
Definition copy_or_update (dirpath replica_dir : path) (file : string) : M unit :=
  let src_file := OS.join dirpath [file] in
  let replica_file := OS.join replica_dir [file] in
  present ← ask (λ fs, OS.path_exists fs replica_file);
  differs ←
    (if negb present then mret true
     else
       d1 ← calculate_md5 src_file;
       d2 ← calculate_md5 replica_file;
       mret (negb (bool_decide (d1 = d2))));
  if (differs : bool) then
    syscall (λ fs, OS.copy2 fs src_file replica_file);;
    Lib.logging_info (FileCopied src_file replica_file)
  else mret tt.

(** Lines 43-58: one directory of the forward pass. *)
Definition forward_body (dirpath : path) (_ filenames : list string) : M unit :=
  let rel_path := OS.relpath dirpath source in
  let replica_dir := OS.join replica rel_path in
  present ← ask (λ fs, OS.path_exists fs replica_dir);
  (if negb present then
     Lib.makedirs replica_dir;;
     Lib.logging_info (DirCreated replica_dir)
   else mret tt);;
  for_each filenames (copy_or_update dirpath replica_dir).

(** Lines 72-77: one file of the reverse pass. *)
Definition remove_orphan (dirpath source_dir : path) (file : string) : M unit :=
  let replica_file := OS.join dirpath [file] in
  let source_file := OS.join source_dir [file] in
  present ← ask (λ fs, OS.path_exists fs source_file);
  if negb present then
    syscall (λ fs, OS.remove fs replica_file);;
    Lib.logging_info (FileRemoved replica_file)
  else mret tt.

(** Lines 62-77: one directory of the reverse pass. *)
Definition reverse_body (dirpath : path) (_ filenames : list string) : M unit :=
  let rel_path := OS.relpath dirpath replica in
  let source_dir := OS.join source rel_path in
  present ← ask (λ fs, OS.path_exists fs source_dir);
  if negb present then
    Lib.rmtree dirpath;;
    Lib.logging_info (DirRemoved dirpath)
  else
    for_each filenames (remove_orphan dirpath source_dir).

Definition forward_pass (fuel : nat) : M unit :=
  Lib.walk fuel source forward_body.

Definition reverse_pass (fuel : nat) : M unit :=
  Lib.walk fuel replica reverse_body.

Definition sync_folders (fuel : nat) : M unit :=
  forward_pass fuel;;
  reverse_pass fuel.

End sync_folders.

Record arguments := Args {
  arg_source : path;
  arg_replica : path;
  arg_interval : Z;
  arg_logfile : path
}.

(** The [while sync_count < max_syncs] loop of [main]; [rounds] bounds the
    number of iterations, [fuel] each walk. *)
Fixpoint main_loop (rounds fuel : nat) (args : arguments) (max_syncs sync_count : Z) : M unit :=
  if sync_count <? max_syncs then
    match rounds with
    | O => out_of_fuel
    | S rounds' =>
        Lib.logging_info (SyncStarting (sync_count + 1) max_syncs);;
        sync_folders (arg_source args) (arg_replica args) fuel;;
        Lib.logging_info (SyncCompleted (sync_count + 1) (arg_interval args));;
        let sync_count := sync_count + 1 in
        Lib.sleep (arg_interval args);;
        main_loop rounds' fuel args max_syncs sync_count
    end
  else mret tt.

Definition main (fuel : nat) (args : arguments) : M unit :=
  let max_syncs := 5 in
  let sync_count := 0 in
  main_loop fuel fuel args max_syncs sync_count;;
  Lib.logging_info ReachedMaximum.

(** The status the interpreter exits with: 0 when [main] returns, 1 when an
    exception reaches the top level. *)
Definition exit_status (o : outcome unit) : option Z :=
  match o with
  | Done _ => Some 0
  | Raised _ => Some 1
  | OutOfFuel => None
  end.

(** * Properties *)

(** ** Paths *)

(** A name a directory entry can have. *)
Definition is_name (c : string) : Prop := c ≠ OS.curdir ∧ c ≠ OS.pardir.

(** A path made of names only: the key of what it names. *)
Definition clean (p : path) : Prop := Forall is_name p.

#[global] Instance is_name_dec c : Decision (is_name c).
Proof. unfold is_name. apply _. Defined.
#[global] Instance clean_dec p : Decision (clean p).
Proof. unfold clean. apply _. Defined.

(** A well-formed file system: the root is a directory, and every other
    entry has a name and lies in a directory. *)
Record wf (fs : filesystem) : Prop := {
  wf_root : fs !! [] = Some Dir;
  wf_parent : ∀ k c, is_Some (fs !! (k ++ [c])) → fs !! k = Some Dir ∧ is_name c
}.

(** [r], as [os.path.relpath] writes it. *)
Definition rel (r : path) : path :=
  match r with [] => [OS.curdir] | _ => r end.

Lemma descend_name cur c : is_name c → OS.descend cur c = cur ++ [c].
Proof.
  intros [H1 H2]. unfold OS.descend.
  destruct (decide (c = OS.curdir)); [done|].
  destruct (decide (c = OS.pardir)); done.
Qed.

Lemma descend_curdir cur : OS.descend cur OS.curdir = cur.
Proof. unfold OS.descend. by rewrite decide_True. Qed.

Lemma clean_app p q : clean (p ++ q) ↔ clean p ∧ clean q.
Proof. apply Forall_app. Qed.

Lemma normpath_from_clean cur p : clean p → foldl OS.descend cur p = cur ++ p.
Proof.
  revert cur. induction p as [|c p IH]; intros cur Hp; simpl.
  - by rewrite app_nil_r.
  - inversion Hp; subst. rewrite descend_name by done.
    rewrite IH by done. by rewrite <- app_assoc.
Qed.

Lemma normpath_clean p : clean p → OS.normpath p = p.
Proof. intros. unfold OS.normpath. by rewrite normpath_from_clean. Qed.

Lemma strip_common_app s r : OS.strip_common (s ++ r) s = (r, []).
Proof.
  induction s as [|c s IH]; simpl.
  - by destruct r.
  - by rewrite decide_True.
Qed.

Lemma relpath_app s r : clean s → clean r → OS.relpath (s ++ r) s = rel r.
Proof.
  intros Hs Hr. unfold OS.relpath.
  rewrite !normpath_clean by (try apply clean_app; done).
  rewrite strip_common_app. simpl. by destruct r.
Qed.


Lemma strip_prefix_Some k key q : OS.strip_prefix k key = Some q ↔ key = k ++ q.
Proof.
  revert key. induction k as [|c k IH]; intros key; simpl.
  - split; congruence.
  - destruct key as [|d key]; [split; [done|intros; discriminate]|].
    destruct (decide (c = d)) as [->|Hne].
    + rewrite IH. split; [by intros ->|]. by intros [= ->].
    + split; [done|]. intros [= ? ?]. done.
Qed.

Lemma wf_lookup_clean fs k : wf fs → is_Some (fs !! k) → clean k.
Proof.
  intros Hwf. induction k as [|c k IH] using rev_ind; intros Hk.
  - constructor.
  - destruct (wf_parent _ Hwf _ _ Hk) as [Hd Hc].
    apply clean_app. split; [apply IH; eauto|]. by constructor.
Qed.

Lemma wf_ancestor fs k q :
  wf fs → is_Some (fs !! (k ++ q)) → q ≠ [] → fs !! k = Some Dir.
Proof.
  intros Hwf. induction q as [|c q IH] using rev_ind; intros Hk Hq; [done|].
  rewrite app_assoc in Hk.
  destruct (wf_parent _ Hwf _ _ Hk) as [Hd Hc].
  destruct q as [|c' q'].
  - by rewrite app_nil_r in Hd.
  - apply IH; [eauto|done].
Qed.

Lemma wf_file_leaf fs k q data meta :
  wf fs → fs !! k = Some (File data meta) → is_Some (fs !! (k ++ q)) → q = [].
Proof.
  intros Hwf Hk Hq. destruct q as [|c q]; [done|].
  assert (fs !! k = Some Dir) by (eapply wf_ancestor; eauto). congruence.
Qed.

(** ** Path resolution *)

Lemma resolve_from_app fs o cur p q :
  OS.resolve_from fs o cur (p ++ q) =
  match OS.resolve_from fs o cur p with
  | Ret k => OS.resolve_from fs o k q
  | Err e => Err e
  end.
Proof.
  revert cur. induction p as [|c p IH]; intros cur; simpl; [done|].
  destruct (fs !! cur) as [[]|]; try done.
Qed.

Lemma resolve_from_clean_ret fs o cur p k :
  clean p → OS.resolve_from fs o cur p = Ret k → k = cur ++ p.
Proof.
  revert cur. induction p as [|c p IH]; intros cur Hp; simpl.
  - intros [= <-]. by rewrite app_nil_r.
  - inversion Hp; subst. destruct (fs !! cur) as [[]|]; try done.
    rewrite descend_name by done. intros Hr.
    apply IH in Hr; [|done]. by rewrite <- app_assoc in Hr.
Qed.

Lemma resolve_from_dirs fs o cur p :
  clean p →
  (∀ p1 p2, p = p1 ++ p2 → p2 ≠ [] → fs !! (cur ++ p1) = Some Dir) →
  OS.resolve_from fs o cur p = Ret (cur ++ p).
Proof.
  revert cur. induction p as [|c p IH]; intros cur Hp Hd; simpl.
  - by rewrite app_nil_r.
  - inversion Hp; subst.
    rewrite <- (app_nil_r cur) at 1. rewrite (Hd [] (c :: p)) by done.
    rewrite descend_name by done.
    rewrite IH; [by rewrite <- app_assoc|done|].
    intros p1 p2 -> Hp2. rewrite <- app_assoc. simpl.
    apply (Hd (c :: p1) p2); done.
Qed.

Lemma resolve_from_fail fs o cur p q k :
  clean p → q ≠ [] → fs !! (cur ++ p) ≠ Some Dir →
  OS.resolve_from fs o cur (p ++ q) ≠ Ret k.
Proof.
  intros Hp Hq Hn. rewrite resolve_from_app.
  destruct (OS.resolve_from fs o cur p) as [k'|] eqn:Hr; [|done].
  apply resolve_from_clean_ret in Hr; [|done]. subst.
  destruct q as [|c q]; [done|]. simpl.
  destruct (fs !! (cur ++ p)) as [[]|]; done.
Qed.

(** In a well-formed file system a key names its own entry. *)
Lemma stat_key fs k e : wf fs → fs !! k = Some e → OS.stat fs k = Ret (k, e).
Proof.
  intros Hwf Hk. unfold OS.stat, OS.resolve.
  rewrite resolve_from_dirs.
  - simpl. by rewrite Hk.
  - eapply wf_lookup_clean; eauto.
  - intros p1 p2 -> Hp2. simpl. eapply wf_ancestor; eauto.
Qed.

Lemma stat_clean_inv fs p k e :
  clean p → OS.stat fs p = Ret (k, e) → k = p ∧ fs !! p = Some e.
Proof.
  intros Hp. unfold OS.stat, OS.resolve.
  destruct (OS.resolve_from fs p [] p) as [k'|] eqn:Hr; [|done].
  apply resolve_from_clean_ret in Hr; [|done]. simpl in Hr. subst k'.
  destruct (fs !! p) eqn:E; [|done]. by intros [= <- <-].
Qed.

Lemma path_exists_clean fs p :
  wf fs → clean p → OS.path_exists fs p = true ↔ is_Some (fs !! p).
Proof.
  intros Hwf Hp. unfold OS.path_exists. split.
  - destruct (OS.stat fs p) as [[k e]|] eqn:E; [|done].
    apply stat_clean_inv in E as [_ E]; eauto.
  - intros [e He]. by rewrite (stat_key _ _ _ Hwf He).
Qed.


(** The last component is looked up in its parent directory. *)
Lemma resolve_from_child fs o p c :
  wf fs → clean p → is_name c →
  OS.resolve_from fs o [] (p ++ [c]) =
  match OS.resolve_from fs o [] p with
  | Ret _ =>
      match fs !! p with
      | Some Dir => Ret (p ++ [c])
      | Some (File _ _) => Err (NotADirectoryError o)
      | None => Err (FileNotFoundError o)
      end
  | Err e => Err e
  end.
Proof.
  intros Hwf Hp Hc. rewrite resolve_from_app.
  destruct (OS.resolve_from fs o [] p) as [k|] eqn:Hr; [|done].
  apply resolve_from_clean_ret in Hr; [|done]. simpl in Hr. subst k. simpl.
  destruct (fs !! p) as [[]|]; try done. by rewrite descend_name.
Qed.

Lemma resolve_from_key fs o p :
  wf fs → is_Some (fs !! p) → OS.resolve_from fs o [] p = Ret p.
Proof.
  intros Hwf Hp. rewrite resolve_from_dirs; [done| |].
  - eapply wf_lookup_clean; eauto.
  - intros p1 p2 -> Hp2. simpl. eapply wf_ancestor; eauto.
Qed.

(** Resolving [p/c] succeeds exactly when [p] is a directory. *)
Lemma resolve_child fs p c k :
  wf fs → clean p → is_name c →
  OS.resolve fs (p ++ [c]) = Ret k ↔ k = p ++ [c] ∧ fs !! p = Some Dir.
Proof.
  intros Hwf Hp Hc. unfold OS.resolve. rewrite resolve_from_child by done. split.
  - destruct (OS.resolve_from _ _ _ p); [|done].
    destruct (fs !! p) as [[]|]; try done. by intros [= <-].
  - intros [-> Hd]. rewrite resolve_from_key by eauto. by rewrite Hd.
Qed.

(** [p/.] names what [p] names, if that is a directory. *)
Lemma resolve_curdir fs p k :
  wf fs → clean p →
  OS.resolve fs (p ++ [OS.curdir]) = Ret k ↔ k = p ∧ fs !! p = Some Dir.
Proof.
  intros Hwf Hp. unfold OS.resolve. rewrite resolve_from_app. split.
  - destruct (OS.resolve_from _ _ _ p) as [k'|] eqn:Hr; [|done].
    apply resolve_from_clean_ret in Hr; [|done]. simpl in Hr. subst k'. simpl.
    destruct (fs !! p) as [[]|]; try done. rewrite descend_curdir. by intros [= <-].
  - intros [-> Hd]. rewrite resolve_from_key by eauto. simpl.
    by rewrite Hd, descend_curdir.
Qed.

Lemma resolve_curdir_child fs p c k :
  wf fs → clean p → is_name c →
  OS.resolve fs (p ++ [OS.curdir] ++ [c]) = Ret k ↔ k = p ++ [c] ∧ fs !! p = Some Dir.
Proof.
  intros Hwf Hp Hc. unfold OS.resolve. rewrite resolve_from_app. split.
  - destruct (OS.resolve_from _ _ _ p) as [k'|] eqn:Hr; [|done].
    apply resolve_from_clean_ret in Hr; [|done]. simpl in Hr. subst k'. simpl.
    destruct (fs !! p) as [[]|] eqn:E; try done. rewrite descend_curdir, E.
    rewrite descend_name by done. by intros [= <-].
  - intros [-> Hd]. rewrite resolve_from_key by eauto. simpl.
    by rewrite Hd, descend_curdir, Hd, descend_name.
Qed.

(** The directory [replica/rel] of the script, for the relative path [r]. *)
Lemma resolve_rel fs p r k :
  wf fs → clean p → clean r →
  OS.resolve fs (OS.join p (rel r)) = Ret k →
  k = p ++ r ∧ (r = [] → fs !! p = Some Dir).
Proof.
  intros Hwf Hp Hr. unfold OS.join. destruct r as [|c r]; simpl.
  - intros H. apply resolve_curdir in H as [-> ?]; [|done..].
    by rewrite app_nil_r.
  - intros H. unfold OS.resolve in H.
    apply resolve_from_clean_ret in H; [|by apply clean_app]. done.
Qed.

Lemma stat_rel fs p r k e :
  wf fs → clean p → clean r →
  OS.stat fs (OS.join p (rel r)) = Ret (k, e) ↔
  k = p ++ r ∧ fs !! (p ++ r) = Some e ∧ (r = [] → e = Dir).
Proof.
  intros Hwf Hp Hr. unfold OS.stat. split.
  - destruct (OS.resolve fs _) as [k'|] eqn:E; [|done].
    apply resolve_rel in E as [-> Hd]; [|done..].
    destruct (fs !! (p ++ r)) eqn:E'; [|done]. intros [= <- <-].
    split; [done|]. split; [done|]. intros ->. rewrite app_nil_r in E'.
    rewrite Hd in E' by done. congruence.
  - intros (-> & He & Hd). destruct r as [|c r]; simpl.
    + rewrite app_nil_r in He. rewrite Hd in He by done.
      assert (OS.resolve fs (OS.join p [OS.curdir]) = Ret p) as ->
        by (by apply resolve_curdir).
      by rewrite app_nil_r, He, Hd.
    + unfold OS.join, OS.resolve. rewrite resolve_from_key by eauto. by rewrite He.
Qed.

Lemma resolve_rel_child fs p r c k :
  wf fs → clean p → clean r → is_name c →
  OS.resolve fs (OS.join (OS.join p (rel r)) [c]) = Ret k ↔
  k = p ++ r ++ [c] ∧ fs !! (p ++ r) = Some Dir.
Proof.
  intros Hwf Hp Hr Hc. unfold OS.join. destruct r as [|c' r]; simpl.
  - rewrite <- app_assoc, app_nil_r. by apply resolve_curdir_child.
  - replace (p ++ c' :: r ++ [c]) with ((p ++ c' :: r) ++ [c])
      by (by rewrite <- app_assoc).
    apply resolve_child; [done| |done]. by apply clean_app.
Qed.

Lemma stat_rel_child fs p r c k e :
  wf fs → clean p → clean r → is_name c →
  OS.stat fs (OS.join (OS.join p (rel r)) [c]) = Ret (k, e) ↔
  k = p ++ r ++ [c] ∧ fs !! (p ++ r ++ [c]) = Some e.
Proof.
  intros Hwf Hp Hr Hc. unfold OS.stat. split.
  - destruct (OS.resolve fs _) as [k'|] eqn:E; [|done].
    apply resolve_rel_child in E; [|done..]. destruct E as [-> Hd].
    destruct (fs !! (p ++ r ++ [c])) eqn:E'; [|done]. intros [= <- <-]. done.
  - intros (-> & He).
    assert (OS.resolve fs (OS.join (OS.join p (rel r)) [c]) = Ret (p ++ r ++ [c])) as ->.
    { apply resolve_rel_child; [done..|]. split; [done|].
      rewrite app_assoc in He. eapply wf_parent; eauto. }
    by rewrite He.
Qed.

(** ** Directory listings *)

Lemma elem_of_children fs k name e :
  (name, e) ∈ OS.children fs k ↔ fs !! (k ++ [name]) = Some e.
Proof.
  unfold OS.children. rewrite list_elem_of_omap. split.
  - intros ([key e'] & Hin & Hc). apply elem_of_map_to_list in Hin.
    unfold OS.child_of in Hc. simpl in Hc.
    destruct (OS.strip_prefix k key) as [[|c [|]]|] eqn:E; try done.
    apply strip_prefix_Some in E. by simplify_eq.
  - intros H. exists (k ++ [name], e). split; [by apply elem_of_map_to_list|].
    unfold OS.child_of. simpl.
    by rewrite (proj2 (strip_prefix_Some k (k ++ [name]) [name]) eq_refl).
Qed.

Lemma children_nil fs k : OS.children fs k = [] ↔ ∀ c, fs !! (k ++ [c]) = None.
Proof.
  split.
  - intros H c. destruct (fs !! (k ++ [c])) as [e|] eqn:E; [|done].
    apply elem_of_children in E. rewrite H in E. by apply elem_of_nil in E.
  - intros H. destruct (OS.children fs k) as [|[c e] l] eqn:E; [done|].
    assert ((c, e) ∈ OS.children fs k) as Hin by (rewrite E; left).
    apply elem_of_children in Hin. by rewrite H in Hin.
Qed.

Lemma NoDup_children fs k : NoDup (OS.children fs k).*1.
Proof.
  unfold OS.children.
  assert (NoDup (map_to_list fs).*1) as Hnd by apply NoDup_fst_map_to_list.
  induction (map_to_list fs) as [|[key e] l IH]; simpl; [constructor|].
  inversion Hnd as [|? ? Hnotin Hnd']; subst.
  unfold OS.child_of at 1. simpl.
  destruct (OS.strip_prefix k key) as [[|c [|]]|] eqn:E; simpl; try by apply IH.
  constructor; [|by apply IH].
  apply strip_prefix_Some in E. subst key.
  intros Hin. apply Hnotin.
  apply list_elem_of_fmap in Hin as ([c' e'] & -> & Hin). simpl.
  apply list_elem_of_omap in Hin as ([key' e''] & Hin & Hc).
  unfold OS.child_of in Hc. simpl in Hc.
  destruct (OS.strip_prefix k key') as [[|c'' [|]]|] eqn:E'; try done.
  apply strip_prefix_Some in E'. simplify_eq.
  apply list_elem_of_fmap. by exists (k ++ [c'], e').
Qed.

Lemma NoDup_filter_fst {A B} (P : A * B → Prop) `{∀ x, Decision (P x)} (l : list (A * B)) :
  NoDup l.*1 → NoDup (filter P l).*1.
Proof.
  induction l as [|x l IH]; simpl; [done|].
  intros Hnd. inversion Hnd as [|? ? Hnotin Hnd']; subst.
  rewrite filter_cons. destruct (decide (P x)); [|by apply IH].
  simpl. constructor; [|by apply IH].
  intros Hin. apply Hnotin.
  apply list_elem_of_fmap in Hin as (y & -> & Hin).
  apply list_elem_of_filter in Hin as [_ Hin].
  apply list_elem_of_fmap. by exists y.
Qed.

Lemma scandir_key fs k :
  wf fs → fs !! k = Some Dir → OS.scandir fs k = Ret (OS.children fs k).
Proof.
  intros Hwf Hk. unfold OS.scandir. by rewrite (stat_key _ _ _ Hwf Hk).
Qed.

Lemma scandir_clean_inv fs p entries :
  clean p → OS.scandir fs p = Ret entries →
  fs !! p = Some Dir ∧ entries = OS.children fs p.
Proof.
  intros Hp. unfold OS.scandir.
  destruct (OS.stat fs p) as [[k [|]]|] eqn:E; try done.
  apply stat_clean_inv in E as [-> E]; [|done]. by intros [= <-].
Qed.

(** ** What resolution can reach *)

Lemma wf_removelast fs k : wf fs → is_Some (fs !! k) → is_Some (fs !! removelast k).
Proof.
  intros Hwf Hk. destruct k as [|c k] using rev_ind; [done|].
  rewrite removelast_last. destruct (wf_parent _ Hwf _ _ Hk) as [-> _]. eauto.
Qed.

Lemma resolve_from_cases fs o cur p k :
  wf fs → is_Some (fs !! cur) →
  OS.resolve_from fs o cur p = Ret k →
  is_Some (fs !! k) ∨ ∃ k' c, k = k' ++ [c] ∧ is_name c ∧ fs !! k' = Some Dir.
Proof.
  intros Hwf. revert cur. induction p as [|c p IH]; intros cur Hcur; simpl.
  - intros [= <-]. by left.
  - destruct (fs !! cur) as [[]|] eqn:E; try done.
    destruct p as [|c' p'].
    + simpl. intros [= <-]. unfold OS.descend.
      destruct (decide (c = OS.curdir)); [left; eauto|].
      destruct (decide (c = OS.pardir)).
      * left. apply wf_removelast; eauto.
      * right. exists cur, c. done.
    + intros Hr. simpl in Hr.
      destruct (fs !! OS.descend cur c) as [[]|] eqn:E'; try done.
      apply (IH (OS.descend cur c)); [eauto|]. simpl. by rewrite E'.
Qed.

Lemma resolve_cases fs p k :
  wf fs → OS.resolve fs p = Ret k →
  is_Some (fs !! k) ∨ ∃ k' c, k = k' ++ [c] ∧ is_name c ∧ fs !! k' = Some Dir.
Proof.
  intros Hwf. apply resolve_from_cases; [done|]. rewrite (wf_root _ Hwf). eauto.
Qed.

(** ** System calls keep the file system well formed *)

Lemma wf_insert_new fs k c e :
  wf fs → fs !! k = Some Dir → is_name c → fs !! (k ++ [c]) = None →
  wf (<[k ++ [c] := e]> fs).
Proof.
  intros Hwf Hk Hc Hnew. split.
  - rewrite lookup_insert_ne by (by destruct k). apply Hwf.
  - intros k' c' Hs.
    destruct (decide (k ++ [c] = k' ++ [c'])) as [Heq|Hne].
    + apply app_inj_tail in Heq as [<- <-].
      rewrite lookup_insert_ne; [done|].
      intros Heq. apply (f_equal length) in Heq. rewrite length_app in Heq. simpl in Heq. lia.
    + rewrite lookup_insert_ne in Hs by done.
      destruct (wf_parent _ Hwf _ _ Hs) as [Hd Hn]. split; [|done].
      destruct (decide (k ++ [c] = k')) as [<-|]; [|by rewrite lookup_insert_ne].
      congruence.
Qed.

Lemma wf_insert_file fs k data data' meta meta' :
  wf fs → fs !! k = Some (File data meta) →
  wf (<[k := File data' meta']> fs).
Proof.
  intros Hwf Hk. split.
  - destruct (decide (k = [])) as [->|]; [|rewrite lookup_insert_ne by done; apply Hwf].
    rewrite (wf_root _ Hwf) in Hk. done.
  - intros k' c' Hs.
    assert (is_Some (fs !! (k' ++ [c']))) as Hs'.
    { destruct (decide (k = k' ++ [c'])) as [->|]; [eauto|].
      by rewrite lookup_insert_ne in Hs. }
    destruct (wf_parent _ Hwf _ _ Hs') as [Hd Hn]. split; [|done].
    rewrite lookup_insert_ne; [done|]. congruence.
Qed.

Lemma wf_delete_leaf fs k :
  wf fs → k ≠ [] → (∀ c, fs !! (k ++ [c]) = None) → wf (delete k fs).
Proof.
  intros Hwf Hk Hleaf. split.
  - rewrite lookup_delete_ne by done. apply Hwf.
  - intros k' c' Hs.
    assert (is_Some (fs !! (k' ++ [c']))) as Hs'.
    { destruct (decide (k = k' ++ [c'])) as [->|].
      - rewrite lookup_delete_eq in Hs. by destruct Hs.
      - by rewrite lookup_delete_ne in Hs. }
    destruct (wf_parent _ Hwf _ _ Hs') as [Hd Hn]. split; [|done].
    rewrite lookup_delete_ne; [done|]. intros ->.
    rewrite Hleaf in Hs'. by destruct Hs'.
Qed.

Lemma lookup_purge fs k key :
  OS.purge k fs !! key =
  if decide (k `prefix_of` key ∧ key ≠ k) then None else fs !! key.
Proof.
  unfold OS.purge. destruct (decide _) as [Hd|Hd].
  - apply map_lookup_filter_None. right. intros e He Hn. simpl in Hn. done.
  - destruct (fs !! key) as [e|] eqn:E.
    + apply map_lookup_filter_Some. done.
    + apply map_lookup_filter_None. by left.
Qed.

Lemma wf_purge fs k : wf fs → wf (OS.purge k fs).
Proof.
  intros Hwf. split.
  - rewrite lookup_purge. rewrite decide_False; [apply Hwf|].
    intros [Hp Hn]. apply prefix_nil_inv in Hp. done.
  - intros k' c' Hs. rewrite lookup_purge in Hs.
    destruct (decide _) as [|Hn]; [by destruct Hs|].
    destruct (wf_parent _ Hwf _ _ Hs) as [Hd Hname]. split; [|done].
    rewrite lookup_purge. rewrite decide_False; [done|].
    intros [Hp Hne]. apply Hn. split.
    + by apply prefix_app_r.
    + intros Heq. rewrite <- Heq in Hp. by apply prefix_snoc_not in Hp.
Qed.

Lemma mkdir_inv fs p fs' :
  wf fs → OS.mkdir fs p = Ret fs' →
  ∃ k c, OS.resolve fs p = Ret (k ++ [c]) ∧ is_name c ∧ fs !! k = Some Dir ∧
         fs !! (k ++ [c]) = None ∧ fs' = <[k ++ [c] := Dir]> fs.
Proof.
  intros Hwf. unfold OS.mkdir.
  destruct (OS.resolve fs p) as [k|] eqn:Hr; [|done].
  destruct (fs !! k) eqn:Hk; [done|]. intros [= <-].
  destruct (resolve_cases _ _ _ Hwf Hr) as [Hs|(k' & c & -> & Hc & Hd)].
  - rewrite Hk in Hs. by destruct Hs.
  - exists k', c. done.
Qed.

Lemma wf_mkdir fs p fs' : wf fs → OS.mkdir fs p = Ret fs' → wf fs'.
Proof.
  intros Hwf H. apply mkdir_inv in H as (k & c & _ & Hc & Hd & Hn & ->); [|done].
  by apply wf_insert_new.
Qed.


Lemma wf_rmdir fs p fs' : wf fs → OS.rmdir fs p = Ret fs' → wf fs'.
Proof.
  intros Hwf. unfold OS.rmdir.
  destruct (decide _); [done|]. destruct (decide _); [done|].
  destruct (OS.stat fs p) as [[k [data meta|]]|] eqn:Hs; try done.
  destruct k as [|c k]; [done|].
  destruct (OS.children fs (c :: k)) eqn:Hc; [|done]. intros [= <-].
  apply wf_delete_leaf; [done..|]. by apply children_nil.
Qed.

Lemma copyfile_stat_inv fs src dst fs' :
  wf fs → OS.copyfile_stat fs src dst = Ret fs' →
  ∃ ks data meta k,
    OS.stat fs src = Ret (ks, File data meta) ∧ OS.resolve fs dst = Ret k ∧
    fs !! k ≠ Some Dir ∧ fs' = <[k := File data meta]> fs.
Proof.
  intros Hwf. unfold OS.copyfile_stat.
  destruct (OS.samefile fs src dst); [done|].
  destruct (OS.stat fs src) as [[ks [data meta|]]|] eqn:Hs; try done.
  destruct (OS.resolve fs dst) as [k|] eqn:Hr; [|done].
  destruct (fs !! k) as [[]|] eqn:Hk; try done; intros [= <-];
    exists ks, data, meta, k; rewrite Hk; done.
Qed.

Lemma wf_insert_copy fs dst k data meta :
  wf fs → OS.resolve fs dst = Ret k → fs !! k ≠ Some Dir →
  wf (<[k := File data meta]> fs).
Proof.
  intros Hwf Hr Hk.
  destruct (fs !! k) as [[data' meta'|]|] eqn:E; [|done|].
  - eapply wf_insert_file; eauto.
  - destruct (resolve_cases _ _ _ Hwf Hr) as [Hs|(k' & c & -> & Hc & Hd)].
    + rewrite E in Hs. by destruct Hs.
    + by apply wf_insert_new.
Qed.

Lemma wf_copy2 fs src dst fs' : wf fs → OS.copy2 fs src dst = Ret fs' → wf fs'.
Proof.
  intros Hwf H. unfold OS.copy2 in H.
  apply copyfile_stat_inv in H as (ks & data & meta & k & _ & Hr & Hk & ->); [|done].
  eapply wf_insert_copy; eauto.
Qed.

(** ** Computations *)

Lemma bind_Done {A B : Type} (m : M A) (f : A → M B) w a w' :
  m w = (Done a, w') → (m ≫= f) w = f a w'.
Proof. intros H. unfold mbind, M_bind. by rewrite H. Qed.

Lemma bind_Raised {A B : Type} (m : M A) (f : A → M B) w e w' :
  m w = (Raised e, w') → (m ≫= f) w = (Raised e, w').
Proof. intros H. unfold mbind, M_bind. by rewrite H. Qed.

Lemma bind_OutOfFuel {A B : Type} (m : M A) (f : A → M B) w w' :
  m w = (OutOfFuel, w') → (m ≫= f) w = (OutOfFuel, w').
Proof. intros H. unfold mbind, M_bind. by rewrite H. Qed.

Lemma bind_ask {A B : Type} (q : filesystem → A) (f : A → M B) w :
  (ask q ≫= f) w = f (q (files w)) w.
Proof. done. Qed.

Lemma bind_ret {A B : Type} (a : A) (f : A → M B) w : (mret a ≫= f) w = f a w.
Proof. done. Qed.

(** [I] holds after [m], however [m] ends, if it held before. *)
Definition preserves {A : Type} (I : world → Prop) (m : M A) : Prop :=
  ∀ w, I w → I (m w).2.

Section preserves.
Context (I : world → Prop).

Lemma preserves_ret {A : Type} (a : A) : preserves I (mret a).
Proof. by intros w. Qed.

Lemma preserves_raise {A : Type} e : preserves I (@raise A e).
Proof. by intros w. Qed.

Lemma preserves_out_of_fuel {A : Type} : preserves I (@out_of_fuel A).
Proof. by intros w. Qed.

Lemma preserves_bind {A B : Type} (m : M A) (f : A → M B) :
  preserves I m → (∀ a, preserves I (f a)) → preserves I (m ≫= f).
Proof.
  intros Hm Hf w Hw. specialize (Hm w Hw). unfold mbind, M_bind.
  destruct (m w) as [[a|e|] w']; simpl in *; try done. by apply Hf.
Qed.

Lemma preserves_ask {A : Type} (q : filesystem → A) : preserves I (ask q).
Proof. by intros w. Qed.

Lemma preserves_call {A : Type} (q : filesystem → res A) : preserves I (call q).
Proof. intros w Hw. unfold call. by destruct (q (files w)). Qed.

Lemma preserves_syscall f :
  (∀ w fs', I w → f (files w) = Ret fs' → I (World fs' (journal w))) →
  preserves I (syscall f).
Proof.
  intros Hf w Hw. unfold syscall.
  destruct (f (files w)) eqn:E; simpl; [|done]. by apply Hf.
Qed.

Lemma preserves_update_files f :
  (∀ w, I w → I (World (f (files w)) (journal w))) →
  preserves I (update_files f).
Proof. intros Hf w Hw. by apply Hf. Qed.

Lemma preserves_emit e :
  (∀ w, I w → I (World (files w) (journal w ++ [e]))) →
  preserves I (emit e).
Proof. intros Hf w Hw. by apply Hf. Qed.

Lemma preserves_try_except {A : Type} (m : M A) handles handler :
  preserves I m → preserves I handler → preserves I (try_except m handles handler).
Proof.
  intros Hm Hh w Hw. specialize (Hm w Hw). unfold try_except.
  destruct (m w) as [[a|e|] w']; simpl in *; try done.
  destruct (handles e); [by apply Hh|done].
Qed.

Lemma preserves_for_each {A : Type} (l : list A) (body : A → M unit) :
  (∀ x, x ∈ l → preserves I (body x)) → preserves I (for_each l body).
Proof.
  induction l as [|x l IH]; intros Hb; simpl.
  - apply preserves_ret.
  - apply preserves_bind; [apply Hb; left|].
    intros _. apply IH. intros y Hy. apply Hb. by right.
Qed.

(** The walk keeps [I] if the loop body does, for every directory the
    walk can reach and what is listed there: [reach] holds of the start and
    is inherited by the entries listed under [I]. *)
Lemma preserves_walk_loop (reach : path → Prop) body :
  (∀ w top entries name e, I w → reach top →
     OS.scandir (files w) top = Ret entries → (name, e) ∈ entries →
     reach (OS.join top [name])) →
  (∀ w top entries, I w → reach top →
     OS.scandir (files w) top = Ret entries →
     I (body top (filter OS.entry_is_dir entries).*1
          (filter (λ e, negb (OS.entry_is_dir e)) entries).*1 w).2) →
  ∀ fuel stack, Forall reach stack →
    preserves I (Lib.walk_loop fuel stack body).
Proof.
  intros Hreach Hbody. induction fuel as [|fuel IH]; intros stack Hstack w Hw.
  - destruct stack; simpl; done.
  - destruct stack as [|top stack']; simpl; [done|].
    inversion Hstack as [|? ? Htop Hrest]; subst.
    rewrite bind_ask.
    destruct (OS.scandir (files w) top) as [entries|err] eqn:Hscan.
    + specialize (Hbody w top entries Hw Htop Hscan).
      unfold mbind, M_bind.
      destruct (body top _ _ w) as [[[]|e|] w']; simpl in *; [|done..].
      apply IH; [|done].
      apply Forall_app. split; [|done].
      apply Forall_fmap, Forall_fmap. apply Forall_forall.
      intros [name e] Hin. apply list_elem_of_filter in Hin as [_ Hin].
      simpl. eapply (Hreach w); eauto.
    + by apply IH.
Qed.

End preserves.

(** ** The two passes, one after the other *)

Definition is_forward_event (e : event) : Prop :=
  match e with DirCreated _ | FileCopied _ _ => True | _ => False end.

Definition is_reverse_event (e : event) : Prop :=
  match e with DirRemoved _ | FileRemoved _ => True | _ => False end.

(** From [w0] to [w] nothing was removed, and only creations and copies
    were logged. *)
Definition only_adds (w0 w : world) : Prop :=
  (∀ k, is_Some (files w0 !! k) → is_Some (files w !! k)) ∧
  ∃ evs, journal w = journal w0 ++ evs ∧ Forall is_forward_event evs.

(** From [w0] to [w] nothing was created or rewritten, and only removals
    were logged. *)
Definition only_removes (w0 w : world) : Prop :=
  files w ⊆ files w0 ∧
  ∃ evs, journal w = journal w0 ++ evs ∧ Forall is_reverse_event evs.

Lemma only_adds_refl w : only_adds w w.
Proof. split; [done|]. exists []. by rewrite app_nil_r. Qed.

Lemma only_removes_refl w : only_removes w w.
Proof. split; [done|]. exists []. by rewrite app_nil_r. Qed.

Lemma only_adds_insert w0 w k e :
  only_adds w0 w → only_adds w0 (World (<[k:=e]> (files w)) (journal w)).
Proof.
  intros [Hk Hj]. split; [|done]. simpl. intros k' Hs.
  apply lookup_insert_is_Some. destruct (decide (k = k')); [by left|right; auto].
Qed.

Lemma only_adds_emit w0 w e :
  is_forward_event e → only_adds w0 w →
  only_adds w0 (World (files w) (journal w ++ [e])).
Proof.
  intros He [Hk (evs & Hj & Hf)]. split; [done|]. exists (evs ++ [e]). simpl.
  rewrite Hj, <- app_assoc. split; [done|]. apply Forall_app. split; [done|].
  by constructor.
Qed.

Lemma only_removes_sub w0 w fs' :
  fs' ⊆ files w → only_removes w0 w → only_removes w0 (World fs' (journal w)).
Proof. intros Hs [Hk Hj]. split; [|done]. simpl. by etrans. Qed.

Lemma only_removes_emit w0 w e :
  is_reverse_event e → only_removes w0 w →
  only_removes w0 (World (files w) (journal w ++ [e])).
Proof.
  intros He [Hk (evs & Hj & Hf)]. split; [done|]. exists (evs ++ [e]). simpl.
  rewrite Hj, <- app_assoc. split; [done|]. apply Forall_app. split; [done|].
  by constructor.
Qed.

Lemma mkdir_only_adds w0 p :
  preserves (only_adds w0) (syscall (λ fs, OS.mkdir fs p)).
Proof.
  apply preserves_syscall. intros w fs' Hw. unfold OS.mkdir.
  destruct (OS.resolve _ _); [|done]. destruct (files w !! _); [done|].
  intros [= <-]. by apply only_adds_insert.
Qed.

Lemma makedirs_only_adds w0 name : preserves (only_adds w0) (Lib.makedirs name).
Proof.
  unfold Lib.makedirs. induction (rev name) as [|tail rhead IH]; simpl.
  - apply mkdir_only_adds.
  - apply preserves_bind; [apply preserves_ask|]. intros head_exists.
    destruct (negb head_exists); [|apply mkdir_only_adds].
    apply preserves_bind.
    + apply preserves_try_except; [done|apply preserves_ret].
    + intros _. destruct (decide _); [apply preserves_ret|apply mkdir_only_adds].
Qed.

Lemma copy2_only_adds w0 src dst :
  preserves (only_adds w0) (syscall (λ fs, OS.copy2 fs src dst)).
Proof.
  apply preserves_syscall. intros w fs' Hw. unfold OS.copy2, OS.copyfile_stat.
  destruct (OS.samefile _ _ _); [done|].
  destruct (OS.stat _ src) as [[? [|]]|]; try done.
  destruct (OS.resolve _ _); [|done].
  destruct (files w !! _) as [[]|]; try done; intros [= <-];
    by apply only_adds_insert.
Qed.

Lemma calculate_md5_preserves I p : preserves I (calculate_md5 p).
Proof.
  apply preserves_bind; [apply preserves_call|]. intros. apply preserves_ret.
Qed.

Lemma forward_body_only_adds w0 source replica dirpath dirs filenames :
  preserves (only_adds w0) (forward_body source replica dirpath dirs filenames).
Proof.
  unfold forward_body. apply preserves_bind; [apply preserves_ask|]. intros present.
  apply preserves_bind.
  - destruct (negb present); [|apply preserves_ret].
    apply preserves_bind; [apply makedirs_only_adds|]. intros _.
    apply preserves_emit. intros w. by apply only_adds_emit.
  - intros _. apply preserves_for_each. intros file _. unfold copy_or_update.
    apply preserves_bind; [apply preserves_ask|]. intros present'.
    apply preserves_bind.
    + destruct (negb present'); [apply preserves_ret|].
      apply preserves_bind; [apply calculate_md5_preserves|]. intros d1.
      apply preserves_bind; [apply calculate_md5_preserves|]. intros d2.
      apply preserves_ret.
    + intros [|]; [|apply preserves_ret].
      apply preserves_bind; [apply copy2_only_adds|]. intros _.
      apply preserves_emit. intros w. by apply only_adds_emit.
Qed.

Lemma forward_pass_only_adds source replica fuel w :
  only_adds w (forward_pass source replica fuel w).2.
Proof.
  unfold forward_pass, Lib.walk.
  apply (preserves_walk_loop (only_adds w) (λ _, True)); try done.
  - intros. by apply forward_body_only_adds.
  - repeat constructor.
  - apply only_adds_refl.
Qed.

Lemma delete_subseteq_trans (fs fs0 : filesystem) k : fs ⊆ fs0 → delete k fs ⊆ fs0.
Proof. intros. etrans; [apply delete_subseteq|done]. Qed.

Lemma rmdir_only_removes w0 p :
  preserves (only_removes w0) (syscall (λ fs, OS.rmdir fs p)).
Proof.
  apply preserves_syscall. intros w fs' Hw. unfold OS.rmdir.
  destruct (decide _); [done|]. destruct (decide _); [done|].
  destruct (OS.stat _ _) as [[k [|]]|]; try done.
  destruct k; [done|]. destruct (OS.children _ _); [|done]. intros [= <-].
  apply only_removes_sub; [apply delete_subseteq|done].
Qed.

Lemma rmtree_only_removes w0 p : preserves (only_removes w0) (Lib.rmtree p).
Proof.
  unfold Lib.rmtree. apply preserves_bind; [apply preserves_call|]. intros [k e].
  apply preserves_bind; [|intros _; apply rmdir_only_removes].
  apply preserves_update_files. intros w Hw.
  apply only_removes_sub; [apply map_filter_subseteq|done].
Qed.

Lemma remove_only_removes w0 p :
  preserves (only_removes w0) (syscall (λ fs, OS.remove fs p)).
Proof.
  apply preserves_syscall. intros w fs' Hw. unfold OS.remove.
  destruct (OS.stat _ _) as [[k [|]]|]; try done. intros [= <-].
  apply only_removes_sub; [apply delete_subseteq|done].
Qed.

Lemma reverse_body_only_removes w0 source replica dirpath dirs filenames :
  preserves (only_removes w0) (reverse_body source replica dirpath dirs filenames).
Proof.
  unfold reverse_body. apply preserves_bind; [apply preserves_ask|]. intros present.
  destruct (negb present).
  - apply preserves_bind; [apply rmtree_only_removes|]. intros _.
    apply preserves_emit. intros w. by apply only_removes_emit.
  - apply preserves_for_each. intros file _. unfold remove_orphan.
    apply preserves_bind; [apply preserves_ask|]. intros present'.
    destruct (negb present'); [|apply preserves_ret].
    apply preserves_bind; [apply remove_only_removes|]. intros _.
    apply preserves_emit. intros w. by apply only_removes_emit.
Qed.

Lemma reverse_pass_only_removes source replica fuel w :
  only_removes w (reverse_pass source replica fuel w).2.
Proof.
  unfold reverse_pass, Lib.walk.
  apply (preserves_walk_loop (only_removes w) (λ _, True)); try done.
  - intros. by apply reverse_body_only_removes.
  - repeat constructor.
  - apply only_removes_refl.
Qed.

(** C7.  Whatever the trees and however the call ends, a call of
    [sync_folders] is a forward pass followed by a reverse pass: up to the
    world [w1] between them nothing is removed and only creations and copies
    are logged; after it nothing is created or rewritten and only removals are
    logged; and the second part is empty unless the forward pass ran to its
    end. *)
Theorem forward_pass_completes_before_reverse_pass source replica fuel w :
  let w1 := (forward_pass source replica fuel w).2 in
  let w2 := (sync_folders source replica fuel w).2 in
  ∃ created removed,
    (∀ k, is_Some (files w !! k) → is_Some (files w1 !! k)) ∧
    journal w1 = journal w ++ created ∧ Forall is_forward_event created ∧
    files w2 ⊆ files w1 ∧
    journal w2 = journal w1 ++ removed ∧ Forall is_reverse_event removed ∧
    ((forward_pass source replica fuel w).1 ≠ Done tt → w2 = w1).
Proof.
  intros w1 w2.
  destruct (forward_pass_only_adds source replica fuel w) as [Hk (created & Hj & Hc)].
  fold w1 in Hk, Hj.
  assert (only_removes w1 w2 ∧
          ((forward_pass source replica fuel w).1 ≠ Done tt → w2 = w1)) as [[Hs (removed & Hj' & Hr)] Hd].
  { unfold w2, w1, sync_folders, mbind, M_bind.
    destruct (forward_pass source replica fuel w) as [[[]|e|] w'] eqn:E; simpl.
    - split; [apply reverse_pass_only_removes|done].
    - split; [apply only_removes_refl|done].
    - split; [apply only_removes_refl|done]. }
  exists created, removed. done.
Qed.

(** ** One file of the forward pass *)


Lemma calculate_md5_run p w :
  calculate_md5 p w =
  match OS.open_rb (files w) p with
  | Ret data => (Done (md5_of data), w)
  | Err e => (Raised e, w)
  end.
Proof.
  unfold calculate_md5, mbind, M_bind, call. by destruct (OS.open_rb _ _).
Qed.


Definition copy_and_log (src_file replica_file : path) (w : world) : outcome unit * world :=
  match OS.copy2 (files w) src_file replica_file with
  | Ret fs' => (Done tt, World fs' (journal w ++ [FileCopied src_file replica_file]))
  | Err e => (Raised e, w)
  end.

Lemma copy_or_update_run dirpath replica_dir file w :
  let src_file := OS.join dirpath [file] in
  let replica_file := OS.join replica_dir [file] in
  copy_or_update dirpath replica_dir file w =
  if OS.path_exists (files w) replica_file then
    match OS.open_rb (files w) src_file with
    | Err e => (Raised e, w)
    | Ret a =>
        match OS.open_rb (files w) replica_file with
        | Err e => (Raised e, w)
        | Ret b =>
            if bool_decide (md5_of a = md5_of b) then (Done tt, w)
            else copy_and_log src_file replica_file w
        end
    end
  else copy_and_log src_file replica_file w.
Proof.
  intros src_file replica_file.
  unfold copy_or_update, copy_and_log. fold src_file replica_file.
  unfold mbind, M_bind, ask, calculate_md5, mbind, M_bind, call, syscall,
    Lib.logging_info, emit, mret, M_ret. simpl.
  destruct (OS.path_exists (files w) replica_file); simpl.
  - destruct (OS.open_rb (files w) src_file); simpl; [|done].
    destruct (OS.open_rb (files w) replica_file); simpl; [|done].
    destruct (bool_decide _); simpl; [done|].
    by destruct (OS.copy2 (files w) src_file replica_file).
  - by destruct (OS.copy2 (files w) src_file replica_file).
Qed.


(** ** Removing a tree *)

(** The file system without [k] and everything below it. *)
Definition without_tree (k : path) (fs : filesystem) : filesystem :=
  filter (λ item, ¬ k `prefix_of` item.1) fs.

Lemma lookup_without_tree fs k key :
  without_tree k fs !! key = if decide (k `prefix_of` key) then None else fs !! key.
Proof.
  unfold without_tree. destruct (decide _) as [Hd|Hd].
  - apply map_lookup_filter_None. right. intros e He Hn. simpl in Hn. done.
  - destruct (fs !! key) as [e|] eqn:E.
    + apply map_lookup_filter_Some. done.
    + apply map_lookup_filter_None. by left.
Qed.

Lemma delete_purge fs k : delete k (OS.purge k fs) = without_tree k fs.
Proof.
  apply map_eq. intros key. rewrite lookup_without_tree.
  destruct (decide (k = key)) as [->|Hne].
  - rewrite lookup_delete_eq. by rewrite decide_True.
  - rewrite lookup_delete_ne by done. rewrite lookup_purge.
    destruct (decide (k `prefix_of` key)).
    + by rewrite decide_True.
    + rewrite decide_False; [done|]. by intros [? _].
Qed.

Lemma basename_snoc p c : OS.basename (p ++ [c]) = c.
Proof. unfold OS.basename. apply last_last. Qed.

Lemma rmtree_run p w :
  Lib.rmtree p w =
  match OS.stat (files w) p with
  | Ret (k, Dir) =>
      match OS.rmdir (OS.purge k (files w)) p with
      | Ret fs' => (Done tt, World fs' (journal w))
      | Err e => (Raised e, World (OS.purge k (files w)) (journal w))
      end
  | Ret (_, File _ _) => (Raised (NotADirectoryError p), w)
  | Err e => (Raised e, w)
  end.
Proof.
  unfold Lib.rmtree, mbind, M_bind, call, update_files, syscall. simpl.
  destruct (OS.stat (files w) p) as [[k [|]]|]; simpl; try done.
Qed.

Lemma basename_clean p : clean p → p ≠ [] → is_name (OS.basename p).
Proof.
  intros Hc Hne. destruct p as [|c p _] using rev_ind; [done|].
  rewrite basename_snoc. apply clean_app in Hc as [_ Hc]. by inversion Hc.
Qed.

(** [shutil.rmtree] of a directory other than the root. *)
Lemma rmtree_dir k fs j :
  wf fs → fs !! k = Some Dir → k ≠ [] →
  Lib.rmtree k (World fs j) = (Done tt, World (without_tree k fs) j).
Proof.
  intros Hwf Hk Hne. rewrite rmtree_run. simpl.
  rewrite (stat_key _ _ _ Hwf Hk).
  assert (clean k) as Hclean by (eapply wf_lookup_clean; eauto).
  destruct (basename_clean k Hclean Hne) as [Hb1 Hb2].
  unfold OS.rmdir.
  rewrite decide_False by done. rewrite decide_False by done.
  assert (OS.purge k fs !! k = Some Dir) as Hk'.
  { rewrite lookup_purge. rewrite decide_False; [done|]. by intros [_ ?]. }
  rewrite (stat_key _ _ _ (wf_purge _ _ Hwf) Hk').
  assert (OS.children (OS.purge k fs) k = []) as Hch.
  { apply children_nil. intros c'. rewrite lookup_purge. rewrite decide_True; [done|].
    split; [by apply prefix_app_r|].
    intros Heq. apply (f_equal length) in Heq. rewrite !length_app in Heq. simpl in Heq. lia. }
  rewrite <- delete_purge. destruct k as [|c0 k0]; [done|]. by rewrite Hch.
Qed.

(** ** The walk *)

Lemma walk_loop_step fuel top stack body w :
  Lib.walk_loop (S fuel) (top :: stack) body w =
  match OS.scandir (files w) top with
  | Err _ => Lib.walk_loop fuel stack body w
  | Ret entries =>
      let dirs := (filter OS.entry_is_dir entries).*1 in
      let nondirs := (filter (λ e, negb (OS.entry_is_dir e)) entries).*1 in
      match body top dirs nondirs w with
      | (Done _, w') =>
          Lib.walk_loop fuel (((λ dirname, OS.join top [dirname]) <$> dirs) ++ stack) body w'
      | (Raised e, w') => (Raised e, w')
      | (OutOfFuel, w') => (OutOfFuel, w')
      end
  end.
Proof.
  simpl. rewrite bind_ask. destruct (OS.scandir (files w) top); [|done].
  unfold mbind, M_bind. by destruct (body _ _ _ w) as [[[]| |] ?].
Qed.


(** ** One directory of the reverse pass *)

Lemma reverse_body_run source replica dirpath dirs filenames w :
  let source_dir := OS.join source (OS.relpath dirpath replica) in
  reverse_body source replica dirpath dirs filenames w =
  if OS.path_exists (files w) source_dir then
    for_each filenames (remove_orphan dirpath source_dir) w
  else
    match Lib.rmtree dirpath w with
    | (Done _, w') => (Done tt, World (files w') (journal w' ++ [DirRemoved dirpath]))
    | r => r
    end.
Proof.
  intros source_dir. unfold reverse_body. fold source_dir. rewrite bind_ask.
  destruct (OS.path_exists (files w) source_dir); simpl; [done|].
  unfold mbind, M_bind. by destruct (Lib.rmtree dirpath w) as [[[]| |] ?].
Qed.



(** ** Roots that are not directories *)



Lemma isdir_exists fs p : OS.path_exists fs p = false → OS.isdir fs p = false.
Proof. unfold OS.path_exists, OS.isdir. by destruct (OS.stat fs p). Qed.


Lemma isdir_key fs k : wf fs → fs !! k = Some Dir → OS.isdir fs k = true.
Proof. intros Hwf Hk. unfold OS.isdir. by rewrite (stat_key _ _ _ Hwf Hk). Qed.





(** ** One directory of the forward pass *)

Lemma forward_body_run source replica dirpath dirs filenames w :
  let replica_dir := OS.join replica (OS.relpath dirpath source) in
  forward_body source replica dirpath dirs filenames w =
  if OS.path_exists (files w) replica_dir then
    for_each filenames (copy_or_update dirpath replica_dir) w
  else
    match Lib.makedirs replica_dir w with
    | (Done _, w') =>
        for_each filenames (copy_or_update dirpath replica_dir)
          (World (files w') (journal w' ++ [DirCreated replica_dir]))
    | (Raised e, w') => (Raised e, w')
    | (OutOfFuel, w') => (OutOfFuel, w')
    end.
Proof.
  intros replica_dir. unfold forward_body. fold replica_dir. rewrite bind_ask.
  destruct (OS.path_exists (files w) replica_dir); simpl; [done|].
  unfold mbind, M_bind. by destruct (Lib.makedirs replica_dir w) as [[[]| |] ?].
Qed.

Lemma syscall_run f w :
  syscall f w =
  match f (files w) with
  | Ret fs' => (Done tt, World fs' (journal w))
  | Err e => (Raised e, w)
  end.
Proof. done. Qed.

(** [os.makedirs] of [head/tail]. *)
Lemma makedirs_snoc head tail w :
  Lib.makedirs (head ++ [tail]) w =
  if OS.path_exists (files w) head then
    syscall (λ fs, OS.mkdir fs (head ++ [tail])) w
  else
    match try_except (Lib.makedirs head) Lib.is_FileExistsError (mret tt) w with
    | (Done _, w') =>
        if decide (tail = OS.curdir) then (Done tt, w')
        else syscall (λ fs, OS.mkdir fs (head ++ [tail])) w'
    | (Raised e, w') => (Raised e, w')
    | (OutOfFuel, w') => (OutOfFuel, w')
    end.
Proof.
  unfold Lib.makedirs. rewrite rev_app_distr. simpl.
  rewrite bind_ask, rev_involutive.
  destruct (OS.path_exists (files w) head); simpl; [done|].
  unfold mbind, M_bind.
  destruct (try_except _ _ _ w) as [[[]| |] ?]; try done.
  by destruct (decide _).
Qed.


Lemma path_exists_key fs k : wf fs → is_Some (fs !! k) → OS.path_exists fs k = true.
Proof. intros Hwf [e He]. unfold OS.path_exists. by rewrite (stat_key _ _ _ Hwf He). Qed.





(** ** The driver *)

Lemma main_loop_step rounds fuel args max_syncs sync_count w :
  sync_count < max_syncs →
  main_loop (S rounds) fuel args max_syncs sync_count w =
  match sync_folders (arg_source args) (arg_replica args) fuel
          (World (files w) (journal w ++ [SyncStarting (sync_count + 1) max_syncs])) with
  | (Done _, w1) =>
      if arg_interval args <? 0 then
        (Raised ValueError,
         World (files w1) (journal w1 ++ [SyncCompleted (sync_count + 1) (arg_interval args)]))
      else
        main_loop rounds fuel args max_syncs (sync_count + 1)
          (World (files w1)
             ((journal w1 ++ [SyncCompleted (sync_count + 1) (arg_interval args)])
                ++ [Slept (arg_interval args)]))
  | (Raised e, w1) => (Raised e, w1)
  | (OutOfFuel, w1) => (OutOfFuel, w1)
  end.
Proof.
  intros Hlt. simpl. rewrite (proj2 (Z.ltb_lt _ _) Hlt).
  unfold mbind, M_bind, Lib.logging_info, emit, Lib.sleep. simpl.
  destruct (sync_folders _ _ _ _) as [[[]| |] w1]; try done. simpl.
  by destruct (arg_interval args <? 0).
Qed.


(** ** Well-formedness can be checked *)

Definition wf_item (fs : filesystem) (k : path) (e : entry) : Prop :=
  k = [] ∨ (fs !! removelast k = Some Dir ∧ is_name (OS.basename k)).

Lemma wf_checked fs : fs !! [] = Some Dir ∧ map_Forall (wf_item fs) fs ↔ wf fs.
Proof.
  split.
  - intros [Hroot Hall]. split; [done|]. intros k c [e He].
    destruct (Hall _ _ He) as [Hnil|[Hd Hn]].
    + by destruct k.
    + by rewrite removelast_last, basename_snoc in *.
  - intros Hwf. split; [apply Hwf|]. intros k e He.
    destruct k as [|c k _] using rev_ind; [by left|]. right.
    rewrite removelast_last, basename_snoc. eapply wf_parent; eauto.
Qed.

#[global] Instance wf_item_dec fs k e : Decision (wf_item fs k e).
Proof. unfold wf_item. apply _. Defined.

#[global] Instance wf_dec fs : Decision (wf fs).
Proof.
  refine (cast_if (decide (fs !! [] = Some Dir ∧ map_Forall (wf_item fs) fs)));
    abstract (by rewrite <- wf_checked).
Defined.


(** ** Roots that are missing or are not directories *)


(** ** Exceptions *)



Lemma remove_orphan_run dirpath source_dir file w :
  let replica_file := OS.join dirpath [file] in
  let source_file := OS.join source_dir [file] in
  remove_orphan dirpath source_dir file w =
  if OS.path_exists (files w) source_file then (Done tt, w)
  else
    match OS.remove (files w) replica_file with
    | Ret fs' => (Done tt, World fs' (journal w ++ [FileRemoved replica_file]))
    | Err e => (Raised e, w)
    end.
Proof.
  intros replica_file source_file. unfold remove_orphan. fold replica_file source_file.
  rewrite bind_ask. destruct (OS.path_exists (files w) source_file); simpl; [done|].
  unfold mbind, M_bind, syscall, Lib.logging_info, emit.
  by destruct (OS.remove (files w) replica_file).
Qed.


(** ** The driver's five cycles *)





(** ** What one step does to a well-formed file system *)

Lemma prefix_snoc_inv {A : Type} (k p : list A) (c : A) :
  k `prefix_of` p ++ [c] → k `prefix_of` p ∨ k = p ++ [c].
Proof.
  intros [q Hq]. destruct q as [|d q _] using rev_ind.
  - right. by rewrite app_nil_r in Hq.
  - left. rewrite app_assoc in Hq. apply app_inj_tail in Hq as [-> _].
    by apply prefix_app_r.
Qed.

Lemma clean_prefix k p : clean p → k `prefix_of` p → clean k.
Proof. intros Hp [q ->]. by apply clean_app in Hp as [? _]. Qed.

Lemma clean_snoc p c : clean p → is_name c → clean (p ++ [c]).
Proof. intros. apply clean_app. split; [done|by constructor]. Qed.

Lemma is_name_not_curdir c : is_name c → c ≠ OS.curdir.
Proof. by intros [? _]. Qed.

(** [os.makedirs] on a clean path: it only creates directories, at prefixes
    of the path that were missing; if it returns, the path is a directory. *)
Definition grown (p : path) (fs fs' : filesystem) : Prop :=
  ∀ k, fs' !! k = fs !! k ∨ (fs !! k = None ∧ fs' !! k = Some Dir ∧ k `prefix_of` p).

Lemma grown_refl p fs : grown p fs fs.
Proof. intros k. by left. Qed.

Lemma grown_trans p fs1 fs2 fs3 : grown p fs1 fs2 → grown p fs2 fs3 → grown p fs1 fs3.
Proof.
  intros H12 H23 k. destruct (H23 k) as [E|(E1 & E2 & E3)].
  - rewrite E. apply H12.
  - destruct (H12 k) as [E'|(E1' & E2' & E3')]; [|congruence].
    right. rewrite <- E'. done.
Qed.

Lemma grown_weaken p p' fs fs' : p `prefix_of` p' → grown p fs fs' → grown p' fs fs'.
Proof.
  intros Hp H k. destruct (H k) as [E|(E1 & E2 & E3)]; [by left|].
  right. split_and!; [done..|]. by etrans.
Qed.

Lemma resolve_from_Err fs o cur p e :
  OS.resolve_from fs o cur p = Err e →
  e = NotADirectoryError o ∨ e = FileNotFoundError o.
Proof.
  revert cur. induction p as [|c p IH]; intros cur; simpl; [done|].
  destruct (fs !! cur) as [[]|]; [intros [= <-]; by left|apply IH|intros [= <-]; by right].
Qed.

Lemma mkdir_clean_spec p fs j :
  wf fs → clean p →
  match syscall (λ fs, OS.mkdir fs p) (World fs j) with
  | (Done _, w') =>
      journal w' = j ∧ wf (files w') ∧ grown p fs (files w') ∧
      fs !! p = None ∧ files w' !! p = Some Dir
  | (Raised e, w') =>
      w' = World fs j ∧ (fs !! p = None → ∀ x, e ≠ FileExistsError x)
  | (OutOfFuel, _) => False
  end.
Proof.
  intros Hwf Hp. rewrite syscall_run. simpl.
  destruct (OS.mkdir fs p) as [fs'|e] eqn:E; simpl.
  - pose proof (wf_mkdir _ _ _ Hwf E) as Hwf'.
    destruct (mkdir_inv _ _ _ Hwf E) as (k & c & Hr & Hc & Hd & Hn & ->).
    unfold OS.resolve in Hr. apply resolve_from_clean_ret in Hr; [|done].
    simpl in Hr. rewrite Hr in *. split_and!; try done.
    + intros k'. destruct (decide (p = k')) as [<-|Hne].
      * right. by rewrite lookup_insert_eq.
      * left. by rewrite lookup_insert_ne.
    + by rewrite lookup_insert_eq.
  - split; [done|]. intros Hnone x ->. unfold OS.mkdir in E.
    destruct (OS.resolve fs p) as [k|] eqn:Hr.
    + unfold OS.resolve in Hr. apply resolve_from_clean_ret in Hr; [|done].
      simpl in Hr. subst k. by rewrite Hnone in E.
    + apply resolve_from_Err in Hr as [->| ->]; done.
Qed.

Lemma makedirs_clean_spec p : ∀ fs j,
  wf fs → clean p →
  match Lib.makedirs p (World fs j) with
  | (Done _, w') =>
      journal w' = j ∧ wf (files w') ∧ grown p fs (files w') ∧
      files w' !! p = Some Dir
  | (Raised e, w') =>
      journal w' = j ∧ wf (files w') ∧ grown p fs (files w') ∧
      (fs !! p = None → ∀ x, e ≠ FileExistsError x)
  | (OutOfFuel, _) => False
  end.
Proof.
  induction p as [|tail head IH] using rev_ind; intros fs j Hwf Hp.
  - unfold Lib.makedirs. simpl.
    pose proof (mkdir_clean_spec [] fs j Hwf Hp) as H.
    destruct (syscall _ _) as [[[]|e|] w']; [|destruct H as [-> H]|done].
    + by destruct H as (? & ? & ? & ? & ?).
    + split_and!; try done. apply grown_refl.
  - apply clean_app in Hp as [Hhead Htail]. inversion Htail as [|? ? Hname _]; subst.
    assert (clean (head ++ [tail])) as Hp by by apply clean_snoc.
    rewrite makedirs_snoc. simpl.
    destruct (OS.path_exists fs head) eqn:Hex.
    + pose proof (mkdir_clean_spec _ fs j Hwf Hp) as H.
      destruct (syscall _ _) as [[[]|e|] w']; [|destruct H as [-> H]|done].
      * by destruct H as (? & ? & ? & ? & ?).
      * split_and!; try done. apply grown_refl.
    + assert (fs !! head = None) as Hnone.
      { destruct (fs !! head) eqn:E; [|done].
        rewrite path_exists_key in Hex by eauto. done. }
      specialize (IH fs j Hwf Hhead). unfold try_except.
      destruct (Lib.makedirs head (World fs j)) as [[[]|e|] [fs1 j1]]; simpl in *; [| |done].
      * destruct IH as (-> & Hwf1 & Hg1 & Hd1).
        rewrite decide_False by (by apply is_name_not_curdir).
        pose proof (mkdir_clean_spec _ fs1 j Hwf1 Hp) as H.
        destruct (syscall _ _) as [[[]|e|] w']; [|destruct H as [-> H]|done].
        -- destruct H as (? & ? & Hg & Hn & ?). split_and!; try done.
           eapply grown_trans; [|done]. eapply grown_weaken; [|done]. by apply prefix_app_r.
        -- simpl. split_and!; try done.
           ++ eapply grown_weaken; [|done]. by apply prefix_app_r.
           ++ intros Hn0. apply H. destruct (Hg1 (head ++ [tail])) as [->|(_ & _ & Hpre)]; [done|].
              by apply prefix_snoc_not in Hpre.
      * destruct IH as (-> & Hwf1 & Hg1 & Hfe).
        destruct (Lib.is_FileExistsError e) eqn:Hfee.
        { destruct e; try done. by specialize (Hfe Hnone p). }
        simpl. split_and!; try done.
        -- eapply grown_weaken; [|done]. by apply prefix_app_r.
        -- intros _ x ->. done.
Qed.

(** The same for the directory [replica/rel] of the forward pass. *)
Lemma makedirs_rel_spec p r fs j :
  wf fs → clean p → clean r →
  match Lib.makedirs (OS.join p (rel r)) (World fs j) with
  | (Done _, w') =>
      journal w' = j ∧ wf (files w') ∧ grown (p ++ r) fs (files w') ∧
      files w' !! (p ++ r) = Some Dir
  | (Raised e, w') =>
      journal w' = j ∧ wf (files w') ∧ grown (p ++ r) fs (files w')
  | (OutOfFuel, _) => False
  end.
Proof.
  intros Hwf Hp Hr. unfold OS.join. destruct r as [|c r].
  - simpl. rewrite app_nil_r, makedirs_snoc. simpl.
    destruct (OS.path_exists fs p) eqn:Hex.
    + rewrite syscall_run. simpl.
      destruct (OS.mkdir fs (p ++ [OS.curdir])) as [fs'|e] eqn:E; simpl.
      * destruct (mkdir_inv _ _ _ Hwf E) as (k & c & Hres & _ & _ & Hn & _).
        apply resolve_curdir in Hres as [Hk Hd]; [|done..]. congruence.
      * split_and!; try done. apply grown_refl.
    + assert (fs !! p = None) as Hnone.
      { destruct (fs !! p) eqn:E; [|done].
        rewrite path_exists_key in Hex by eauto. done. }
      pose proof (makedirs_clean_spec p fs j Hwf Hp) as H. unfold try_except.
      destruct (Lib.makedirs p (World fs j)) as [[[]|e|] w']; [| |done].
      * done.
      * destruct H as (? & ? & ? & Hfe).
        destruct (Lib.is_FileExistsError e) eqn:Hfee; [|done].
        destruct e; try done. by specialize (Hfe Hnone p0).
  - assert (clean (p ++ c :: r)) as Hc by (by apply clean_app).
    pose proof (makedirs_clean_spec _ fs j Hwf Hc) as H. simpl.
    destruct (Lib.makedirs (p ++ c :: r) (World fs j)) as [[[]|e|] w']; [done| |done].
    by destruct H as (? & ? & ? & _).
Qed.

Lemma open_rb_key fs k data meta :
  wf fs → fs !! k = Some (File data meta) → OS.open_rb fs k = Ret data.
Proof. intros Hwf Hk. unfold OS.open_rb. by rewrite (stat_key _ _ _ Hwf Hk). Qed.

Lemma open_rb_rel_child fs p r c data :
  wf fs → clean p → clean r → is_name c →
  OS.open_rb fs (OS.join (OS.join p (rel r)) [c]) = Ret data →
  ∃ meta, fs !! (p ++ r ++ [c]) = Some (File data meta).
Proof.
  intros Hwf Hp Hr Hc. unfold OS.open_rb.
  destruct (OS.stat fs _) as [[k [data' meta|]]|] eqn:E; try done.
  apply stat_rel_child in E as [-> E]; [|done..]. intros [= <-]. eauto.
Qed.

Lemma path_exists_rel_child fs p r c :
  wf fs → clean p → clean r → is_name c →
  OS.path_exists fs (OS.join (OS.join p (rel r)) [c]) = true ↔
  is_Some (fs !! (p ++ r ++ [c])).
Proof.
  intros Hwf Hp Hr Hc. unfold OS.path_exists. split.
  - destruct (OS.stat fs _) as [[k e]|] eqn:E; [|done].
    apply stat_rel_child in E as [-> E]; [|done..]. eauto.
  - intros [e He].
    by rewrite (proj2 (stat_rel_child fs p r c _ e Hwf Hp Hr Hc) (conj eq_refl He)).
Qed.

Lemma path_exists_rel fs p r :
  wf fs → clean p → clean r →
  OS.path_exists fs (OS.join p (rel r)) = true ↔
  ∃ e, fs !! (p ++ r) = Some e ∧ (r = [] → e = Dir).
Proof.
  intros Hwf Hp Hr. unfold OS.path_exists. split.
  - destruct (OS.stat fs _) as [[k e]|] eqn:E; [|done].
    apply stat_rel in E as (-> & E & Hd); [|done..]. eauto.
  - intros (e & He & Hd).
    by rewrite (proj2 (stat_rel fs p r _ e Hwf Hp Hr) (conj eq_refl (conj He Hd))).
Qed.

(** One file of the forward pass, between [source/r] and [replica/r]:
    either nothing happens, the two files having the same digest, or the
    source file is written at its place in the replica. *)
Lemma copy_or_update_spec source replica r file w :
  wf (files w) → clean source → clean replica → clean r → is_name file →
  match copy_or_update (source ++ r) (OS.join replica (rel r)) file w with
  | (Done _, w') =>
      ∃ data meta, files w !! (source ++ r ++ [file]) = Some (File data meta) ∧
      ((w' = w ∧ ∃ data' meta',
          files w !! (replica ++ r ++ [file]) = Some (File data' meta') ∧
          md5_of data' = md5_of data) ∨
       (files w !! (replica ++ r) = Some Dir ∧
        files w !! (replica ++ r ++ [file]) ≠ Some Dir ∧
        files w' = <[replica ++ r ++ [file] := File data meta]> (files w) ∧
        journal w' = journal w ++
          [FileCopied (OS.join (source ++ r) [file])
             (OS.join (OS.join replica (rel r)) [file])]))
  | (Raised e, w') => w' = w
  | (OutOfFuel, _) => False
  end.
Proof.
  intros Hwf Hs Hp Hr Hf. rewrite copy_or_update_run. simpl.
  set (src := OS.join (source ++ r) [file]).
  set (dst := OS.join (OS.join replica (rel r)) [file]).
  assert (clean src) as Hsrc by (apply clean_snoc; [by apply clean_app|done]).
  assert (OS.isdir (files w) dst = false →
          match copy_and_log src dst w with
          | (Done _, w') =>
              ∃ data meta, files w !! (source ++ r ++ [file]) = Some (File data meta) ∧
                files w !! (replica ++ r) = Some Dir ∧
                files w !! (replica ++ r ++ [file]) ≠ Some Dir ∧
                files w' = <[replica ++ r ++ [file] := File data meta]> (files w) ∧
                journal w' = journal w ++ [FileCopied src dst]
          | (Raised e, w') => w' = w
          | (OutOfFuel, _) => False
          end) as Hcopy.
  { intros Hnd. unfold copy_and_log, OS.copy2. rewrite Hnd.
    destruct (OS.copyfile_stat (files w) src dst) as [fs'|e] eqn:E; [|done].
    destruct (copyfile_stat_inv _ _ _ _ Hwf E) as (ks & data & meta & k & Hst & Hres & Hk & ->).
    apply stat_clean_inv in Hst as [-> Hst]; [|done].
    apply resolve_rel_child in Hres; [|done..]. destruct Hres as [-> Hd].
    exists data, meta. unfold src, OS.join in Hst. rewrite <- app_assoc in Hst. done. }
  destruct (OS.path_exists (files w) dst) eqn:Hex.
  - destruct (OS.open_rb (files w) src) as [a|] eqn:Ha; [|done].
    destruct (OS.open_rb (files w) dst) as [b|] eqn:Hb; [|done].
    assert (OS.isdir (files w) dst = false) as Hnd.
    { unfold OS.open_rb in Hb. unfold OS.isdir.
      by destruct (OS.stat (files w) dst) as [[? [|]]|]. }
    destruct (bool_decide (md5_of a = md5_of b)) eqn:Hd.
    + apply bool_decide_eq_true in Hd.
      apply open_rb_rel_child in Hb as [meta' Hb]; [|done..].
      unfold OS.open_rb in Ha.
      destruct (OS.stat (files w) src) as [[k [data meta|]]|] eqn:E; try done.
      apply stat_clean_inv in E as [-> E]; [|done]. simplify_eq.
      exists a, meta. unfold src, OS.join in E. rewrite <- app_assoc in E.
      split; [done|]. left. split; [done|]. by exists b, meta'.
    + specialize (Hcopy Hnd).
      destruct (copy_and_log src dst w) as [[[]|e|] w']; [|done..].
      destruct Hcopy as (data & meta & ? & ? & ? & ? & ?).
      exists data, meta. split; [done|]. by right.
  - assert (OS.isdir (files w) dst = false) as Hnd.
    { unfold OS.path_exists in Hex. unfold OS.isdir.
      by destruct (OS.stat (files w) dst) as [[? [|]]|]. }
    specialize (Hcopy Hnd).
    destruct (copy_and_log src dst w) as [[[]|e|] w']; [|done..].
    destruct Hcopy as (data & meta & ? & ? & ? & ? & ?).
    exists data, meta. split; [done|]. by right.
Qed.

(** One file of the reverse pass: it is removed exactly when it has no
    counterpart. *)
Lemma remove_orphan_spec source replica r file data meta w :
  wf (files w) → clean source → clean replica → clean r → is_name file →
  files w !! (replica ++ r ++ [file]) = Some (File data meta) →
  remove_orphan (replica ++ r) (OS.join source (rel r)) file w =
  if decide (is_Some (files w !! (source ++ r ++ [file]))) then (Done tt, w)
  else (Done tt, World (delete (replica ++ r ++ [file]) (files w))
                   (journal w ++ [FileRemoved (OS.join (replica ++ r) [file])])).
Proof.
  intros Hwf Hs Hp Hr Hf Hfile. rewrite remove_orphan_run. simpl.
  destruct (decide (is_Some (files w !! (source ++ r ++ [file])))) as [Hex|Hex].
  - by rewrite (proj2 (path_exists_rel_child _ _ _ _ Hwf Hs Hr Hf) Hex).
  - destruct (OS.path_exists (files w) _) eqn:E.
    { apply path_exists_rel_child in E; done. }
    unfold OS.remove, OS.join. rewrite <- app_assoc.
    by rewrite (stat_key _ _ _ Hwf Hfile).
Qed.

(** ** Loops with invariants *)

(** The loop over the files of a directory: [P before] holds when the files
    [before] have been dealt with; [E] holds if the loop ends early. *)
Lemma for_each_inv {A : Type} (P : list A → world → Prop) (E : world → Prop)
    (body : A → M unit) (l : list A) :
  (∀ before x after w, l = before ++ x :: after → P before w →
     match body x w with
     | (Done _, w') => P (before ++ [x]) w'
     | (Raised _, w') => E w'
     | (OutOfFuel, _) => False
     end) →
  ∀ w, P [] w →
    match for_each l body w with
    | (Done _, w') => P l w'
    | (Raised _, w') => E w'
    | (OutOfFuel, _) => False
    end.
Proof.
  intros Hbody.
  assert (∀ rest before w, l = before ++ rest → P before w →
            match for_each rest body w with
            | (Done _, w') => P l w'
            | (Raised _, w') => E w'
            | (OutOfFuel, _) => False
            end) as H.
  { induction rest as [|x rest IH]; intros before w Hl Hw; simpl.
    - by rewrite Hl, app_nil_r.
    - specialize (Hbody before x rest w Hl Hw). unfold mbind, M_bind.
      destruct (body x w) as [[[]|e|] w']; [|done..].
      apply (IH (before ++ [x])); [|done]. by rewrite <- app_assoc. }
  intros w Hw. by apply (H l []).
Qed.

(** *** The listing of a directory *)

Section listing.
Context (fs : filesystem) (top : path) (entries : list (string * entry)).
Hypothesis Hclean : clean top.
Hypothesis Hscan : OS.scandir fs top = Ret entries.

Let dirs := (filter OS.entry_is_dir entries).*1.
Let nondirs := (filter (λ e, negb (OS.entry_is_dir e)) entries).*1.

Lemma listing_top : fs !! top = Some Dir.
Proof. by destruct (scandir_clean_inv _ _ _ Hclean Hscan). Qed.

Lemma elem_of_dirs name : name ∈ dirs ↔ fs !! (top ++ [name]) = Some Dir.
Proof.
  destruct (scandir_clean_inv _ _ _ Hclean Hscan) as [_ ->].
  unfold dirs. rewrite list_elem_of_fmap. split.
  - intros ([name' e] & -> & Hin). apply list_elem_of_filter in Hin as [Hd Hin].
    apply elem_of_children in Hin. unfold OS.entry_is_dir in Hd. simpl in *.
    by destruct e.
  - intros H. exists (name, Dir). split; [done|]. apply list_elem_of_filter.
    split; [done|]. by apply elem_of_children.
Qed.

Lemma elem_of_nondirs name :
  name ∈ nondirs ↔ ∃ data meta, fs !! (top ++ [name]) = Some (File data meta).
Proof.
  destruct (scandir_clean_inv _ _ _ Hclean Hscan) as [_ ->].
  unfold nondirs. rewrite list_elem_of_fmap. split.
  - intros ([name' e] & -> & Hin). apply list_elem_of_filter in Hin as [Hd Hin].
    apply elem_of_children in Hin. unfold OS.entry_is_dir in Hd. simpl in *.
    destruct e; [eauto|done].
  - intros (data & meta & H). exists (name, File data meta). split; [done|].
    apply list_elem_of_filter. split; [done|]. by apply elem_of_children.
Qed.

Lemma NoDup_dirs : NoDup dirs.
Proof.
  destruct (scandir_clean_inv _ _ _ Hclean Hscan) as [_ ->].
  apply NoDup_filter_fst, NoDup_children.
Qed.

End listing.

(** *** The stack of the walk *)

(** No directory of the stack lies in another one. *)
Fixpoint antichain (stack : list path) : Prop :=
  match stack with
  | [] => True
  | s :: rest => Forall (λ t, ¬ s `prefix_of` t ∧ ¬ t `prefix_of` s) rest ∧ antichain rest
  end.

Lemma antichain_push top rest dirs :
  antichain (top :: rest) → NoDup dirs →
  antichain (((λ dirname, OS.join top [dirname]) <$> dirs) ++ rest).
Proof.
  intros [Htop Hrest]. induction dirs as [|d dirs IH]; intros Hnd; simpl; [done|].
  inversion Hnd as [|? ? Hnotin Hnd']; subst. split; [|by apply IH].
  apply Forall_app. split.
  - apply Forall_fmap, Forall_forall. intros d' Hin. simpl. unfold OS.join.
    assert (d ≠ d') by (intros ->; done).
    split; intros Hp; apply prefix_app_inv in Hp;
      apply prefix_cons_inv_1 in Hp; congruence.
  - eapply Forall_impl; [exact Htop|]. intros t [H1 H2]. simpl in *. unfold OS.join. split.
    + intros Hp. apply H1. by eapply prefix_app_l.
    + intros Hp. apply prefix_snoc_inv in Hp as [Hp| ->]; [done|].
      apply H1. by apply prefix_app_r.
Qed.

(** The entries of [G] the walk has still to pass: those in a directory of
    the stack. *)
Definition pending (G : gset path) (stack : list path) : gset path :=
  filter (λ k, Exists (λ s, s `prefix_of` k) stack) G.

Lemma pending_pop G top rest children :
  top ∈ G →
  Forall (λ t, ¬ t `prefix_of` top) rest →
  Forall (λ c, top `prefix_of` c ∧ c ≠ top) children →
  (size (pending G (children ++ rest)) < size (pending G (top :: rest)))%nat.
Proof.
  intros Htop Hrest Hch. apply subset_size. apply strict_spec_alt. split.
  - intros k Hk. apply elem_of_filter in Hk as [Hk HG]. apply elem_of_filter.
    split; [|done]. apply Exists_app in Hk as [Hk|Hk].
    + left. apply Exists_exists in Hk as (c & Hc & Hck).
      rewrite Forall_forall in Hch. destruct (Hch c Hc) as [Hpre _]. by etrans.
    + by right.
  - intros Heq.
    assert (top ∈ pending G (top :: rest)) as Hin.
    { apply elem_of_filter. split; [by left|done]. }
    rewrite <- Heq in Hin. apply elem_of_filter in Hin as [Hin _].
    apply Exists_app in Hin as [Hin|Hin]; apply Exists_exists in Hin as (c & Hc & Hck).
    + rewrite Forall_forall in Hch. destruct (Hch c Hc) as [Hpre Hne].
      apply Hne. by apply (anti_symm prefix).
    + rewrite Forall_forall in Hrest. by apply (Hrest c Hc).
Qed.

Lemma pending_size G stack : (size (pending G stack) ≤ size G)%nat.
Proof. apply subseteq_size. intros k Hk. by apply elem_of_filter in Hk as [_ ?]. Qed.

(** The walk, with an invariant [Inv] on the stack and the world.  All the
    directories that come on the stack belong to the finite set [G], so the
    walk ends if it has more rounds than [G] has elements. *)
Lemma walk_loop_total (G : gset path) (Inv : list path → world → Prop)
    (E : world → Prop) body :
  (∀ stack w, Inv stack w → Forall (λ s, s ∈ G) stack) →
  (∀ top rest w e, Inv (top :: rest) w → OS.scandir (files w) top = Err e →
     Inv rest w) →
  (∀ top rest w entries, Inv (top :: rest) w → OS.scandir (files w) top = Ret entries →
     let dirs := (filter OS.entry_is_dir entries).*1 in
     let nondirs := (filter (λ e, negb (OS.entry_is_dir e)) entries).*1 in
     NoDup dirs ∧
     match body top dirs nondirs w with
     | (Done _, w') => Inv (((λ dirname, OS.join top [dirname]) <$> dirs) ++ rest) w'
     | (Raised _, w') => E w'
     | (OutOfFuel, _) => False
     end) →
  ∀ fuel stack w, Inv stack w → antichain stack →
    (size (pending G stack) < fuel)%nat →
    match Lib.walk_loop fuel stack body w with
    | (Done _, w') => Inv [] w'
    | (Raised _, w') => E w'
    | (OutOfFuel, _) => False
    end.
Proof.
  intros HG Hfail Hbody. induction fuel as [|fuel IH]; intros stack w Hinv Hanti Hfuel; [lia|].
  destruct stack as [|top rest]; [done|].
  pose proof (HG _ _ Hinv) as Hstack. inversion Hstack as [|? ? Htop _]; subst.
  destruct Hanti as [Hanti1 Hanti2].
  assert (Forall (λ t, ¬ t `prefix_of` top) rest) as Hrest.
  { eapply Forall_impl; [exact Hanti1|]. by intros t [_ ?]. }
  rewrite walk_loop_step.
  destruct (OS.scandir (files w) top) as [entries|e] eqn:Hscan.
  - destruct (Hbody _ _ _ _ Hinv Hscan) as [Hnd Hb]. simpl.
    destruct (body top _ _ w) as [[[]|e|] w']; [|done..].
    apply IH; [done|by apply antichain_push|].
    assert (size (pending G
              (((λ dirname, OS.join top [dirname]) <$> (filter OS.entry_is_dir entries).*1)
                 ++ rest)) < size (pending G (top :: rest)))%nat; [|lia].
    apply pending_pop; [done..|].
    apply Forall_fmap, Forall_forall. intros d _. simpl. unfold OS.join. split.
    + by apply prefix_app_r.
    + intros Heq. apply (f_equal length) in Heq. rewrite length_app in Heq. simpl in Heq. lia.
  - apply IH; [by eapply Hfail|done|].
    assert (size (pending G ([] ++ rest)) < size (pending G (top :: rest)))%nat; [|simpl in *; lia].
    by apply pending_pop.
Qed.

(** More rounds do not change a walk that ended. *)
Lemma walk_loop_more_fuel body : ∀ fuel fuel' stack w,
  (fuel ≤ fuel')%nat →
  (Lib.walk_loop fuel stack body w).1 ≠ OutOfFuel →
  Lib.walk_loop fuel' stack body w = Lib.walk_loop fuel stack body w.
Proof.
  induction fuel as [|fuel IH]; intros fuel' stack w Hle Hne.
  - destruct stack; [by destruct fuel'|]. simpl in Hne. done.
  - destruct stack as [|top rest]; [by destruct fuel'|].
    destruct fuel' as [|fuel']; [lia|].
    rewrite !walk_loop_step in *.
    destruct (OS.scandir (files w) top) as [entries|e]; simpl in *.
    + destruct (body top _ _ w) as [[[]|e|] w']; [|done..].
      apply IH; [lia|done].
    + apply IH; [lia|done].
Qed.

(** ** Everything that is written lies in the replica *)

(** From [fs0] to [fs], outside the tree of [replica] nothing has changed,
    except that missing ancestors of [replica] may have been created. *)
Definition replica_only (replica : path) (fs0 fs : filesystem) : Prop :=
  ∀ k, ¬ replica `prefix_of` k →
    fs !! k = fs0 !! k ∨
    (k `prefix_of` replica ∧ fs0 !! k = None ∧ fs !! k = Some Dir).

Lemma replica_only_refl replica fs : replica_only replica fs fs.
Proof. intros k _. by left. Qed.

Lemma replica_only_inside replica fs0 fs fs' :
  (∀ k, ¬ replica `prefix_of` k → fs' !! k = fs !! k) →
  replica_only replica fs0 fs → replica_only replica fs0 fs'.
Proof. intros H H0 k Hk. rewrite (H k Hk). by apply H0. Qed.

Lemma replica_only_grown replica r fs0 fs fs' :
  grown (replica ++ r) fs fs' →
  replica_only replica fs0 fs → replica_only replica fs0 fs'.
Proof.
  intros Hg H0 k Hk. destruct (Hg k) as [->|(Hn & Hd & Hp)]; [by apply H0|].
  right. assert (k `prefix_of` replica) as Hkr.
  { destruct (prefix_weak_total k replica (replica ++ r)) as [?|?];
      [done|by apply prefix_app_r|done..]. }
  split_and!; [done| |done].
  destruct (H0 k Hk) as [<-|(_ & ? & ?)]; [done|congruence].
Qed.

Lemma replica_only_insert replica q e fs0 fs :
  replica_only replica fs0 fs →
  replica_only replica fs0 (<[replica ++ q := e]> fs).
Proof.
  apply replica_only_inside. intros k Hk. apply lookup_insert_ne.
  intros <-. apply Hk. by apply prefix_app_r.
Qed.




Lemma wf_insert_file_at fs parent c data meta :
  wf fs → fs !! parent = Some Dir → is_name c →
  fs !! (parent ++ [c]) ≠ Some Dir →
  wf (<[parent ++ [c] := File data meta]> fs).
Proof.
  intros Hwf Hp Hc Hk. destruct (fs !! (parent ++ [c])) as [[data' meta'|]|] eqn:E; [|done|].
  - eapply wf_insert_file; eauto.
  - by apply wf_insert_new.
Qed.

Lemma wf_without_tree fs k : wf fs → k ≠ [] → wf (without_tree k fs).
Proof.
  intros Hwf Hk. rewrite <- delete_purge. apply wf_delete_leaf; [by apply wf_purge|done|].
  intros c. rewrite lookup_purge. rewrite decide_True; [done|].
  split; [by apply prefix_app_r|].
  intros Heq. apply (f_equal length) in Heq. rewrite length_app in Heq. simpl in Heq. lia.
Qed.


Section frame.
Context (source replica : path) (fs0 : filesystem).
Hypothesis Hsource : clean source.
Hypothesis Hreplica : clean replica.

(** What holds at every moment of a call. *)
Definition framed (w : world) : Prop :=
  wf (files w) ∧ replica_only replica fs0 (files w).

Lemma listed_is_name w top entries name e :
  wf (files w) → clean top →
  OS.scandir (files w) top = Ret entries → (name, e) ∈ entries → is_name name.
Proof.
  intros Hwf Hc Hscan Hin.
  destruct (scandir_clean_inv _ _ _ Hc Hscan) as [_ ->].
  apply elem_of_children in Hin. eapply (wf_parent _ Hwf); eauto.
Qed.

Lemma listed_nondirs_names w top entries :
  wf (files w) → clean top → OS.scandir (files w) top = Ret entries →
  Forall is_name (filter (λ e, negb (OS.entry_is_dir e)) entries).*1.
Proof.
  intros Hwf Hc Hscan. apply Forall_fmap, Forall_forall. intros [name e] Hin.
  apply list_elem_of_filter in Hin as [_ Hin]. simpl.
  eapply listed_is_name; eauto.
Qed.


Lemma copy_or_update_framed r file w :
  clean r → is_name file → framed w →
  match copy_or_update (source ++ r) (OS.join replica (rel r)) file w with
  | (Done _, w') => framed w'
  | (Raised _, w') => framed w'
  | (OutOfFuel, _) => False
  end.
Proof.
  intros Hr Hf [Hwf Hro].
  pose proof (copy_or_update_spec source replica r file w Hwf Hsource Hreplica Hr Hf) as H.
  destruct (copy_or_update _ _ file w) as [[[]|e|] w']; [|by subst|done].
  destruct H as (data & meta & _ & [[-> _]|(Hd & Hk & Hfs & _)]); [done|].
  split; rewrite Hfs.
  - rewrite app_assoc. apply wf_insert_file_at; try done. by rewrite <- app_assoc.
  - by apply replica_only_insert.
Qed.








End frame.

(** The two roots are clean paths and neither lies in the other. *)
Definition separate (source replica : path) : Prop :=
  clean source ∧ clean replica ∧
  ¬ source `prefix_of` replica ∧ ¬ replica `prefix_of` source.

#[global] Instance separate_dec source replica : Decision (separate source replica).
Proof. unfold separate. apply _. Defined.

Lemma separate_outside source replica k :
  separate source replica → source `prefix_of` k →
  ¬ replica `prefix_of` k ∧ ¬ k `prefix_of` replica.
Proof.
  intros (_ & _ & Hsr & Hrs) Hk. split.
  - intros Hr. by destruct (prefix_weak_total _ _ _ Hk Hr).
  - intros Hr. apply Hsr. by etrans.
Qed.

Lemma replica_only_source source replica fs0 fs k :
  separate source replica → replica_only replica fs0 fs →
  source `prefix_of` k → fs !! k = fs0 !! k.
Proof.
  intros Hsep Hro Hk. destruct (separate_outside _ _ _ Hsep Hk) as [H1 H2].
  by destruct (Hro k H1) as [?|(? & _)].
Qed.


(** ** The forward pass, for roots that are apart *)

Section forward.
Context (source replica : path) (fs0 : filesystem).
Hypothesis Hsep : separate source replica.
Hypothesis Hwf0 : wf fs0.
Hypothesis Hsrc : fs0 !! source = Some Dir.

Local Abbreviation framed := (framed replica fs0).

Lemma sep_source : clean source.
Proof. by destruct Hsep as (? & _). Qed.
Lemma sep_replica : clean replica.
Proof. by destruct Hsep as (_ & ? & _). Qed.

Lemma source_unchanged w q : framed w → files w !! (source ++ q) = fs0 !! (source ++ q).
Proof.
  intros [_ Hro]. eapply replica_only_source; [done..|]. by apply prefix_app_r.
Qed.

(** The entry of [source] at the relative path [q] has its counterpart in
    the replica. *)
Definition good (q : path) (fs : filesystem) : Prop :=
  match fs0 !! (source ++ q) with
  | Some (File data _) =>
      ∃ data' meta', fs !! (replica ++ q) = Some (File data' meta') ∧
                     md5_of data' = md5_of data
  | Some Dir => ∃ e, fs !! (replica ++ q) = Some e ∧ (q = [] → e = Dir)
  | None => True
  end.

Lemma good_mono fs fs' q :
  (∀ e, fs !! (replica ++ q) = Some e → fs' !! (replica ++ q) = Some e) →
  good q fs → good q fs'.
Proof.
  intros H. unfold good. destruct (fs0 !! (source ++ q)) as [[data meta|]|]; [| |done].
  - intros (data' & meta' & Hk & Hd). exists data', meta'. split; [by apply H|done].
  - intros (e & Hk & Hd). exists e. split; [by apply H|done].
Qed.

Lemma good_grown p fs fs' q : grown p fs fs' → good q fs → good q fs'.
Proof.
  intros Hg. apply good_mono. intros e He.
  destruct (Hg (replica ++ q)) as [->|(? & _)]; [done|congruence].
Qed.

Lemma good_copy fs q0 data meta q :
  fs0 !! (source ++ q0) = Some (File data meta) →
  good q fs → good q (<[replica ++ q0 := File data meta]> fs).
Proof.
  intros H0. destruct (decide (q = q0)) as [->|Hne].
  - intros _. unfold good. rewrite H0. exists data, meta.
    by rewrite lookup_insert_eq.
  - apply good_mono. intros e He. rewrite lookup_insert_ne; [done|].
    intros Heq. by apply app_inv_head in Heq.
Qed.

Lemma good_copied fs q0 data meta :
  fs0 !! (source ++ q0) = Some (File data meta) →
  good q0 (<[replica ++ q0 := File data meta]> fs).
Proof.
  intros H0. unfold good. rewrite H0. exists data, meta. by rewrite lookup_insert_eq.
Qed.

(** The invariant of the forward walk: every entry of the source is done
    or lies in a directory of the stack. *)
Definition forward_inv (stack : list path) (w : world) : Prop :=
  framed w ∧
  Forall (λ s, ∃ r, s = source ++ r ∧ fs0 !! s = Some Dir) stack ∧
  ∀ q, good q (files w) ∨ Exists (λ s, s `prefix_of` source ++ q) stack.

(** The loop over the files of [source/r]. *)
Definition files_inv (r : path) (w1 : world) (before : list string) (w : world) : Prop :=
  framed w ∧
  (∀ q, good q (files w1) → good q (files w)) ∧
  (∃ e, files w !! (replica ++ r) = Some e ∧ (r = [] → e = Dir)) ∧
  ∀ f, f ∈ before → good (r ++ [f]) (files w).

Lemma copy_or_update_inv r w1 before file w :
  clean r → is_name file → files_inv r w1 before w →
  match copy_or_update (source ++ r) (OS.join replica (rel r)) file w with
  | (Done _, w') => files_inv r w1 (before ++ [file]) w'
  | (Raised _, w') => True
  | (OutOfFuel, _) => False
  end.
Proof.
  intros Hr Hf (Hfr & Hmono & Hdir & Hbefore).
  pose proof (copy_or_update_framed source replica fs0 sep_source sep_replica
                r file w Hr Hf Hfr) as Hfr'.
  pose proof (copy_or_update_spec source replica r file w (proj1 Hfr)
                sep_source sep_replica Hr Hf) as H.
  destruct (copy_or_update _ _ file w) as [[[]|e|] w']; [|done..].
  destruct H as (data & meta & Hs & H).
  rewrite source_unchanged in Hs by done.
  destruct H as [[-> (data' & meta' & Hk & Hd)]|(Hd & Hk & Hfs & _)].
  - split_and!; try done. intros f Hin. apply elem_of_app in Hin as [Hin|Hin]; [by apply Hbefore|].
    apply list_elem_of_singleton in Hin as ->. unfold good. rewrite Hs. eauto.
  - split_and!; try done.
    + intros q Hq. rewrite Hfs. apply good_copy; [done|]. by apply Hmono.
    + destruct Hdir as (e & He & Hde). exists e. split; [|done].
      rewrite Hfs, lookup_insert_ne; [done|].
      intros Heq. apply app_inv_head in Heq.
      apply (f_equal length) in Heq. rewrite length_app in Heq. simpl in Heq. lia.
    + intros f Hin. rewrite Hfs. apply elem_of_app in Hin as [Hin|Hin].
      * apply good_copy; [done|]. by apply Hbefore.
      * apply list_elem_of_singleton in Hin as ->. by apply good_copied.
Qed.

Lemma forward_body_inv r rest entries w :
  let dirs := (filter OS.entry_is_dir entries).*1 in
  let nondirs := (filter (λ e, negb (OS.entry_is_dir e)) entries).*1 in
  clean r →
  forward_inv ((source ++ r) :: rest) w →
  OS.scandir (files w) (source ++ r) = Ret entries →
  match forward_body source replica (source ++ r) dirs nondirs w with
  | (Done _, w') =>
      forward_inv (((λ dirname, OS.join (source ++ r) [dirname]) <$> dirs) ++ rest) w'
  | (Raised _, w') => True
  | (OutOfFuel, _) => False
  end.
Proof.
  intros dirs nondirs Hr (Hfr & Hstack & Hprog) Hscan.
  apply Forall_cons in Hstack as [(_ & _ & Htop) Hstack].
  assert (clean (source ++ r)) as Hc by (apply clean_app; split; [apply sep_source|done]).
  pose proof (listed_nondirs_names w _ _ (proj1 Hfr) Hc Hscan) as Hnames.
  fold nondirs in Hnames.
  (* once the directory is there, the files *)
  assert (∀ w1, files_inv r w1 [] w1 → (∀ q, good q (files w) → good q (files w1)) →
            match for_each nondirs
                    (copy_or_update (source ++ r) (OS.join replica (rel r))) w1 with
            | (Done _, w') =>
                forward_inv (((λ dirname, OS.join (source ++ r) [dirname]) <$> dirs) ++ rest) w'
            | (Raised _, w') => True
            | (OutOfFuel, _) => False
            end) as Hfiles.
  { intros w1 Hw1 Hmono1.
    assert (match for_each nondirs
                    (copy_or_update (source ++ r) (OS.join replica (rel r))) w1 with
            | (Done _, w') => files_inv r w1 nondirs w'
            | (Raised _, w') => True
            | (OutOfFuel, _) => False
            end) as H.
    { apply (for_each_inv (files_inv r w1) (λ _, True)); [|done].
      intros before x after w2 Hl Hw2.
      apply copy_or_update_inv; [done| |done].
      rewrite Forall_forall in Hnames. apply Hnames. rewrite Hl.
      apply elem_of_app. right. left. }
    destruct (for_each nondirs _ w1) as [[[]|e|] w']; [|done..].
    destruct H as (Hfr' & Hmono & Hdir & Hdone).
    split_and!; [done| |].
    + apply Forall_app. split; [|done].
      apply Forall_fmap, Forall_forall. intros d Hd. simpl.
      apply (elem_of_dirs _ _ _ Hc Hscan) in Hd. rewrite <- app_assoc in Hd.
      rewrite (source_unchanged w) in Hd by done.
      exists (r ++ [d]). unfold OS.join. by rewrite <- app_assoc.
    + intros q. destruct (Hprog q) as [Hg|Hp]; [left; by apply Hmono, Hmono1|].
      apply Exists_cons in Hp as [Hp|Hp]; [|right; apply Exists_app; by right].
      apply prefix_app_inv in Hp as [q2 ->].
      destruct q2 as [|x q3].
      * left. rewrite app_nil_r. unfold good. rewrite Htop.
        destruct Hdir as (e & He & Hde). eauto.
      * destruct (fs0 !! (source ++ r ++ x :: q3)) as [e|] eqn:Hq;
          [|left; unfold good; by rewrite Hq].
        assert (is_Some (fs0 !! ((source ++ r ++ [x]) ++ q3))) as Hx.
        { rewrite <- !app_assoc. simpl. eauto. }
        destruct (fs0 !! (source ++ r ++ [x])) as [[data meta|]|] eqn:Hx'.
        -- apply (wf_file_leaf _ _ _ _ _ Hwf0 Hx') in Hx. subst q3.
           left. apply Hdone. apply (elem_of_nondirs _ _ _ Hc Hscan).
           exists data, meta. rewrite <- app_assoc. by rewrite (source_unchanged w).
        -- right. apply Exists_app. left. apply Exists_fmap, Exists_exists.
           exists x. split.
           ++ apply (elem_of_dirs _ _ _ Hc Hscan). rewrite <- app_assoc.
              by rewrite (source_unchanged w).
           ++ simpl. unfold OS.join. rewrite <- !app_assoc. apply prefix_app.
              apply prefix_app. by apply prefix_cons, prefix_nil.
        -- destruct q3 as [|y q3]; [destruct Hx; congruence|].
           assert (fs0 !! (source ++ r ++ [x]) = Some Dir); [|congruence].
           by eapply wf_ancestor. }
  rewrite forward_body_run. simpl. rewrite relpath_app by (done || apply sep_source).
  destruct (OS.path_exists (files w) _) eqn:Hex.
  - apply path_exists_rel in Hex; [|apply Hfr|apply sep_replica|done].
    apply Hfiles; [|done]. split_and!; try done. by intros f Hin%elem_of_nil.
  - destruct Hfr as [Hwf Hro]. destruct w as [fs j]. simpl in *.
    pose proof (makedirs_rel_spec replica r fs j Hwf sep_replica Hr) as H.
    destruct (Lib.makedirs _ _) as [[[]|e|] w1]; [|done..].
    destruct H as (Hj & Hwf1 & Hg & Hd).
    assert (∀ q, good q fs → good q (files w1)) as Hmono1
      by (intros q; by apply good_grown with (p := replica ++ r)).
    apply Hfiles; [|done]. split_and!; try done.
    + split; [done|]. simpl. by eapply replica_only_grown.
    + simpl. eauto.
    + by intros f Hin%elem_of_nil.
Qed.

End forward.

Section forward_pass.
Context (source replica : path) (fs0 : filesystem).
Hypothesis Hsep : separate source replica.
Hypothesis Hwf0 : wf fs0.
Hypothesis Hsrc : fs0 !! source = Some Dir.

(** With more rounds than the file system has entries, the forward pass
    ends; if it ends normally, every entry of the source has its
    counterpart. *)
Lemma forward_pass_total fuel j :
  (size fs0 < fuel)%nat →
  match forward_pass source replica fuel (World fs0 j) with
  | (Done _, w1) => framed replica fs0 w1 ∧ ∀ q, good source replica fs0 q (files w1)
  | (Raised _, w1) => True
  | (OutOfFuel, _) => False
  end.
Proof.
  intros Hfuel. unfold forward_pass, Lib.walk.
  pose proof (walk_loop_total (dom fs0) (forward_inv source replica fs0) (λ _, True)
                (forward_body source replica)) as H.
  assert (clean source) as Hcs by (by destruct Hsep).
  assert (match Lib.walk_loop fuel [source] (forward_body source replica) (World fs0 j) with
          | (Done _, w') => forward_inv source replica fs0 [] w'
          | (Raised _, w') => True
          | (OutOfFuel, _) => False
          end) as Hrun.
  { apply H.
    - intros stack w (_ & Hstack & _). eapply Forall_impl; [exact Hstack|].
      intros s (r & _ & Hd). simpl in Hd. apply elem_of_dom. eauto.
    - intros top rest w e (Hfr & Hstack & _) Hscan.
      apply Forall_cons in Hstack as [(r & -> & Hd) _].
      rewrite <- (source_unchanged source replica fs0 Hsep w r Hfr) in Hd.
      rewrite (scandir_key _ _ (proj1 Hfr) Hd) in Hscan. done.
    - intros top rest w entries Hinv Hscan.
      destruct Hinv as (Hfr & Hstack & Hprog).
      pose proof Hstack as Hstack'.
      apply Forall_cons in Hstack' as [(r & -> & Hd) _].
      assert (clean (source ++ r)) as Hc by (eapply wf_lookup_clean; eauto).
      split; [by eapply NoDup_dirs|].
      apply forward_body_inv; try done. by apply clean_app in Hc as [_ ?].
    - split_and!.
      + split; [done|apply replica_only_refl].
      + constructor; [|constructor]. exists []. by rewrite app_nil_r.
      + intros q. right. left. by apply prefix_app_r.
    - done.
    - pose proof (pending_size (dom fs0) [source]). rewrite size_dom in *. lia. }
  destruct (Lib.walk_loop fuel [source] _ _) as [[[]|e|] w1]; [|done..].
  destruct Hrun as (Hfr & _ & Hprog). split; [done|].
  intros q. destruct (Hprog q) as [?|Hex]; [done|]. by apply Exists_nil in Hex.
Qed.

End forward_pass.

(** ** The reverse pass, for roots that are apart *)

Lemma separate_key_ne source replica x y :
  separate source replica → source ++ x ≠ replica ++ y.
Proof.
  intros (_ & _ & H1 & H2) Heq.
  destruct (prefix_weak_total source replica (source ++ x)) as [?|?]; try done.
  - by apply prefix_app_r.
  - rewrite Heq. by apply prefix_app_r.
Qed.

Lemma separate_replica_ne source replica : separate source replica → replica ≠ [].
Proof. intros (_ & _ & _ & H) ->. apply H, prefix_nil. Qed.

Section reverse.
Context (source replica : path) (fs1 : filesystem).
Hypothesis Hsep : separate source replica.
Hypothesis Hwf1 : wf fs1.
Hypothesis Hsrc : fs1 !! source = Some Dir.

(** What is in the replica at the relative path [q] has its counterpart
    in the source. *)
Definition settled (q : path) (fs : filesystem) : Prop :=
  is_Some (fs !! (replica ++ q)) → is_Some (fs1 !! (source ++ q)).

(** From [fs1] to [fs], entries of the replica without a counterpart have
    been removed, and nothing else has changed. *)
Definition pruned (fs : filesystem) : Prop :=
  ∀ k, fs !! k = fs1 !! k ∨
       (fs !! k = None ∧ ∃ q, k = replica ++ q ∧ fs1 !! (source ++ q) = None).

Definition reverse_inv (stack : list path) (w : world) : Prop :=
  wf (files w) ∧ pruned (files w) ∧
  Forall (λ s, ∃ r, s = replica ++ r ∧ fs1 !! s = Some Dir) stack ∧
  ∀ q, settled q (files w) ∨ Exists (λ s, s `prefix_of` replica ++ q) stack.

Lemma pruned_source fs q : pruned fs → fs !! (source ++ q) = fs1 !! (source ++ q).
Proof.
  intros H. destruct (H (source ++ q)) as [?|(_ & q' & Heq & _)]; [done|].
  by apply separate_key_ne in Heq.
Qed.

Lemma pruned_sub fs k e : pruned fs → fs !! k = Some e → fs1 !! k = Some e.
Proof. intros H He. destruct (H k) as [<-|(? & _)]; [done|congruence]. Qed.

Lemma settled_mono fs fs' q :
  (∀ e, fs' !! (replica ++ q) = Some e → fs !! (replica ++ q) = Some e) →
  settled q fs → settled q fs'.
Proof. intros H Hs [e He]. apply Hs. eauto. Qed.

(** The loop over the files of [replica/r], from the world [w]. *)
Definition orphans_inv (r : path) (w : world) (before : list string) (w2 : world) : Prop :=
  wf (files w2) ∧
  (∀ k, files w2 !! k = files w !! k ∨
        (files w2 !! k = None ∧
         ∃ f, f ∈ before ∧ k = replica ++ r ++ [f] ∧ fs1 !! (source ++ r ++ [f]) = None)) ∧
  ∀ f, f ∈ before → settled (r ++ [f]) (files w2).

Lemma remove_orphan_inv r w before file after w2 :
  clean r → pruned (files w) →
  NoDup (before ++ file :: after) →
  (∃ data meta, files w !! (replica ++ r ++ [file]) = Some (File data meta)) →
  orphans_inv r w before w2 →
  match remove_orphan (replica ++ r) (OS.join source (rel r)) file w2 with
  | (Done _, w') => orphans_inv r w (before ++ [file]) w'
  | (Raised _, w') => False
  | (OutOfFuel, _) => False
  end.
Proof.
  intros Hr Hpr Hnd (data & meta & Hfile) (Hwf & Hch & Hbefore).
  destruct Hsep as (Hcs & Hcr & _).
  assert (is_name file) as Hname.
  { destruct (wf_parent fs1 Hwf1 (replica ++ r) file) as [_ ?]; [|done].
    rewrite <- app_assoc. eexists. by eapply pruned_sub. }
  assert (file ∉ before) as Hnotin.
  { apply NoDup_app in Hnd as (_ & Hnd & _). intros Hin. apply (Hnd _ Hin). left. }
  assert (files w2 !! (replica ++ r ++ [file]) = Some (File data meta)) as Hfile2.
  { destruct (Hch (replica ++ r ++ [file])) as [->|(_ & f & Hf & Heq & _)]; [done|].
    apply app_inv_head, app_inv_head in Heq. by simplify_eq. }
  assert (files w2 !! (source ++ r ++ [file]) = fs1 !! (source ++ r ++ [file])) as Hsrc2.
  { destruct (Hch (source ++ r ++ [file])) as [->|(_ & f & _ & Heq & _)].
    - by apply pruned_source.
    - by apply separate_key_ne in Heq. }
  rewrite (remove_orphan_spec source replica r file data meta w2) by done.
  rewrite Hsrc2.
  destruct (decide (is_Some (fs1 !! (source ++ r ++ [file])))) as [Hex|Hex].
  - split_and!; [done| |].
    + intros k. destruct (Hch k) as [?|(? & f & ? & ? & ?)]; [by left|].
      right. split; [done|]. exists f. split_and!; try done. apply elem_of_app. by left.
    + intros f Hin. apply elem_of_app in Hin as [Hin|Hin]; [by apply Hbefore|].
      apply list_elem_of_singleton in Hin as ->. by intros ?.
  - assert (fs1 !! (source ++ r ++ [file]) = None) as Hnone.
    { destruct (fs1 !! (source ++ r ++ [file])) eqn:E; [|done]. destruct Hex. eauto. }
    split_and!; simpl.
    + apply wf_delete_leaf; [done|by destruct replica, r|].
      intros c. destruct (files w2 !! ((replica ++ r ++ [file]) ++ [c])) eqn:E; [|done].
      assert (files w2 !! (replica ++ r ++ [file]) = Some Dir); [|congruence].
      eapply (wf_parent _ Hwf); eauto.
    + intros k. destruct (decide (k = replica ++ r ++ [file])) as [->|Hne].
      * right. rewrite lookup_delete_eq. split; [done|]. exists file.
        split_and!; try done. apply elem_of_app. right. left.
      * rewrite lookup_delete_ne by done.
        destruct (Hch k) as [?|(? & f & ? & ? & ?)]; [by left|].
        right. split; [done|]. exists f. split_and!; try done. apply elem_of_app. by left.
    + intros f Hin. apply elem_of_app in Hin as [Hin|Hin].
      * eapply settled_mono; [|by apply Hbefore]. intros e.
        destruct (decide (replica ++ r ++ [f] = replica ++ r ++ [file])) as [->|Hne].
        -- by rewrite lookup_delete_eq.
        -- by rewrite lookup_delete_ne.
      * apply list_elem_of_singleton in Hin as ->. intros [e He].
        by rewrite lookup_delete_eq in He.
Qed.

Lemma reverse_body_inv r rest entries w :
  let dirs := (filter OS.entry_is_dir entries).*1 in
  let nondirs := (filter (λ e, negb (OS.entry_is_dir e)) entries).*1 in
  clean r →
  reverse_inv ((replica ++ r) :: rest) w →
  OS.scandir (files w) (replica ++ r) = Ret entries →
  match reverse_body source replica (replica ++ r) dirs nondirs w with
  | (Done _, w') =>
      reverse_inv (((λ dirname, OS.join (replica ++ r) [dirname]) <$> dirs) ++ rest) w'
  | (Raised _, w') => False
  | (OutOfFuel, _) => False
  end.
Proof.
  intros dirs nondirs Hr (Hwf & Hpr & Hstack & Hprog) Hscan.
  apply Forall_cons in Hstack as [(_ & _ & Htop) Hstack].
  pose proof Hsep as (Hcs & Hcr & _).
  assert (clean (replica ++ r)) as Hc by (by apply clean_app).
  pose proof (listing_top _ _ _ Hc Hscan) as Hdir.
  assert (Forall (λ s, ∃ r0, s = replica ++ r0 ∧ fs1 !! s = Some Dir)
            (((λ dirname, OS.join (replica ++ r) [dirname]) <$> dirs) ++ rest)) as Hstack'.
  { apply Forall_app. split; [|done].
    apply Forall_fmap, Forall_forall. intros d Hd. simpl.
    apply (elem_of_dirs _ _ _ Hc Hscan) in Hd. rewrite <- app_assoc in Hd.
    exists (r ++ [d]). unfold OS.join. rewrite <- app_assoc.
    split; [done|]. by eapply pruned_sub. }
  rewrite reverse_body_run. simpl. rewrite relpath_app by done.
  destruct (OS.path_exists (files w) (OS.join source (rel r))) eqn:Hex.
  - (* the source directory is there: the files *)
    apply path_exists_rel in Hex; [|done..]. destruct Hex as (es & Hes & _).
    rewrite pruned_source in Hes by done.
    assert (match for_each nondirs
                    (remove_orphan (replica ++ r) (OS.join source (rel r))) w with
            | (Done _, w') => orphans_inv r w nondirs w'
            | (Raised _, w') => False
            | (OutOfFuel, _) => False
            end) as H.
    { apply (for_each_inv (orphans_inv r w) (λ _, False)).
      - intros before x after w2 Hl Hw2.
        apply (remove_orphan_inv r w before x after); try done.
        + rewrite <- Hl. destruct (scandir_clean_inv _ _ _ Hc Hscan) as [_ ->].
          apply NoDup_filter_fst, NoDup_children.
        + assert (x ∈ nondirs) as Hx by (rewrite Hl; apply elem_of_app; right; left).
          apply (elem_of_nondirs _ _ _ Hc Hscan) in Hx as (data & meta & Hx).
          rewrite <- app_assoc in Hx. eauto.
      - split_and!; [done|by left|by intros f Hin%elem_of_nil]. }
    destruct (for_each nondirs _ w) as [[[]|e|] w']; [|done..].
    destruct H as (Hwf' & Hch & Hdone).
    assert (∀ k e, files w' !! k = Some e → files w !! k = Some e) as Hsub.
    { intros k e He. destruct (Hch k) as [<-|(? & _)]; [done|congruence]. }
    split_and!; [done| |done|].
    + intros k. destruct (Hch k) as [->|(Hn & f & _ & -> & Hnone)]; [apply Hpr|].
      right. split; [done|]. by exists (r ++ [f]).
    + intros q. destruct (Hprog q) as [Hs|Hp].
      { left. eapply settled_mono; [|done]. intros e. apply Hsub. }
      apply Exists_cons in Hp as [Hp|Hp]; [|right; apply Exists_app; by right].
      apply prefix_app_inv in Hp as [q2 ->].
      destruct q2 as [|x q3].
      * left. rewrite app_nil_r. intros _. eauto.
      * destruct (files w' !! (replica ++ r ++ x :: q3)) as [e|] eqn:Hq;
          [|left; intros [? ?]; congruence].
        assert (is_Some (files w' !! ((replica ++ r ++ [x]) ++ q3))) as Hx.
        { rewrite <- !app_assoc. simpl. eauto. }
        destruct (files w' !! (replica ++ r ++ [x])) as [[data meta|]|] eqn:Hx'.
        -- apply (wf_file_leaf _ _ _ _ _ Hwf' Hx') in Hx. subst q3.
           left. apply Hdone. apply (elem_of_nondirs _ _ _ Hc Hscan).
           exists data, meta. rewrite <- app_assoc. by apply Hsub.
        -- right. apply Exists_app. left. apply Exists_fmap, Exists_exists.
           exists x. split.
           ++ apply (elem_of_dirs _ _ _ Hc Hscan). rewrite <- app_assoc. by apply Hsub.
           ++ simpl. unfold OS.join. rewrite <- !app_assoc. apply prefix_app.
              apply prefix_app. by apply prefix_cons, prefix_nil.
        -- destruct q3 as [|y q3]; [destruct Hx; congruence|].
           assert (files w' !! (replica ++ r ++ [x]) = Some Dir); [|congruence].
           by eapply wf_ancestor.
  - (* the source directory is missing: the whole tree goes *)
    assert (fs1 !! (source ++ r) = None) as Hnone.
    { destruct (fs1 !! (source ++ r)) as [e|] eqn:E; [|done].
      assert (OS.path_exists (files w) (OS.join source (rel r)) = true); [|congruence].
      apply path_exists_rel; [done..|]. exists e. rewrite pruned_source by done.
      split; [done|]. intros ->. rewrite app_nil_r in E. congruence. }
    assert (replica ++ r ≠ []) as Hne.
    { pose proof (separate_replica_ne _ _ Hsep). by destruct replica. }
    destruct w as [fs j]. simpl in *. rewrite rmtree_dir by done. simpl.
    split_and!; [by apply wf_without_tree| |done|].
    + intros k. simpl. rewrite lookup_without_tree.
      destruct (decide _) as [Hp|Hp]; [|apply Hpr].
      right. split; [done|]. destruct Hp as [q2 ->]. exists (r ++ q2).
      rewrite <- app_assoc. split; [done|].
      destruct (fs1 !! (source ++ r ++ q2)) eqn:E; [|done].
      destruct q2 as [|x q2]; [rewrite app_nil_r in E; congruence|].
      assert (fs1 !! (source ++ r) = Some Dir); [|congruence].
      apply (wf_ancestor fs1 _ (x :: q2)); [done| |done].
      rewrite <- app_assoc. eauto.
    + intros q. destruct (Hprog q) as [Hs|Hp].
      { left. eapply settled_mono; [|done]. intros e. simpl.
        rewrite lookup_without_tree. by destruct (decide _). }
      apply Exists_cons in Hp as [Hp|Hp]; [|right; apply Exists_app; by right].
      left. intros [e He]. simpl in He. rewrite lookup_without_tree in He.
      by rewrite decide_True in He.
Qed.

End reverse.

Section reverse_pass.
Context (source replica : path) (fs1 : filesystem).
Hypothesis Hsep : separate source replica.
Hypothesis Hwf1 : wf fs1.
Hypothesis Hsrc : fs1 !! source = Some Dir.
Hypothesis Hrep : fs1 !! replica = Some Dir.

(** With more rounds than the file system has entries, the reverse pass
    ends normally, and what is left in the replica has a counterpart. *)
Lemma reverse_pass_total fuel j :
  (size fs1 < fuel)%nat →
  ∃ w2, reverse_pass source replica fuel (World fs1 j) = (Done tt, w2) ∧
        wf (files w2) ∧ pruned source replica fs1 (files w2) ∧
        ∀ q, settled source replica fs1 q (files w2).
Proof.
  intros Hfuel. unfold reverse_pass, Lib.walk.
  pose proof Hsep as (Hcs & Hcr & _).
  assert (match Lib.walk_loop fuel [replica] (reverse_body source replica) (World fs1 j) with
          | (Done _, w') => reverse_inv source replica fs1 [] w'
          | (Raised _, w') => False
          | (OutOfFuel, _) => False
          end) as Hrun.
  { apply (walk_loop_total (dom fs1) (reverse_inv source replica fs1) (λ _, False)).
    - intros stack w (_ & _ & Hstack & _). eapply Forall_impl; [exact Hstack|].
      intros s (r & _ & Hd). simpl in Hd. apply elem_of_dom. eauto.
    - intros top rest w e (Hwf & Hpr & Hstack & Hprog) Hscan.
      apply Forall_cons in Hstack as [(r & -> & Hd) Hstack].
      split_and!; try done.
      assert (files w !! (replica ++ r) = None) as Hnone.
      { destruct (files w !! (replica ++ r)) as [e'|] eqn:E; [|done].
        pose proof (pruned_sub _ _ _ _ _ _ Hpr E) as E'.
        assert (e' = Dir) as -> by congruence.
        rewrite (scandir_key _ _ Hwf E) in Hscan. done. }
      intros q. destruct (Hprog q) as [Hs|Hp]; [by left|].
      apply Exists_cons in Hp as [Hp|Hp]; [|by right].
      left. intros [e' He']. apply prefix_app_inv in Hp as [q2 ->].
      destruct q2 as [|x q2]; [rewrite app_nil_r in He'; congruence|].
      assert (files w !! (replica ++ r) = Some Dir); [|congruence].
      apply (wf_ancestor _ _ (x :: q2)); [done| |done].
      rewrite <- app_assoc. eauto.
    - intros top rest w entries Hinv Hscan.
      pose proof Hinv as (Hwf & Hpr & Hstack & Hprog).
      apply Forall_cons in Hstack as [(r & -> & Hd) _].
      assert (clean (replica ++ r)) as Hc by (apply (wf_lookup_clean fs1); eauto).
      split; [by eapply NoDup_dirs|].
      apply reverse_body_inv; try done. by apply clean_app in Hc as [_ ?].
    - split_and!; [done|by left| |].
      + constructor; [|constructor]. exists []. by rewrite app_nil_r.
      + intros q. right. left. by apply prefix_app_r.
    - done.
    - pose proof (pending_size (dom fs1) [replica]). rewrite size_dom in *. lia. }
  destruct (Lib.walk_loop fuel [replica] _ _) as [[[]|e|] w2]; [|done..].
  exists w2. destruct Hrun as (Hwf & Hpr & _ & Hprog). split_and!; try done.
  intros q. destruct (Hprog q) as [?|Hex]; [done|]. by apply Exists_nil in Hex.
Qed.

End reverse_pass.

(** ** Convergence *)

(** The replica mirrors the source: a file of the source is a file of the
    replica with the same MD5 digest; a directory of the source exists in the
    replica, as a directory if it is the root or is not empty; and the replica
    has nothing else. *)
Definition mirrored (source replica : path) (fs : filesystem) : Prop :=
  (∀ q data meta, fs !! (source ++ q) = Some (File data meta) →
     ∃ data' meta', fs !! (replica ++ q) = Some (File data' meta') ∧
                    md5_of data' = md5_of data) ∧
  (∀ q, fs !! (source ++ q) = Some Dir →
     ∃ e, fs !! (replica ++ q) = Some e ∧
          (q = [] ∨ (∃ c, is_Some (fs !! (source ++ q ++ [c]))) → e = Dir)) ∧
  (∀ q, is_Some (fs !! (replica ++ q)) → is_Some (fs !! (source ++ q))).

Lemma sync_folders_run source replica fuel w :
  sync_folders source replica fuel w =
  match forward_pass source replica fuel w with
  | (Done _, w1) => reverse_pass source replica fuel w1
  | (Raised e, w1) => (Raised e, w1)
  | (OutOfFuel, w1) => (OutOfFuel, w1)
  end.
Proof.
  unfold sync_folders, mbind, M_bind.
  by destruct (forward_pass source replica fuel w) as [[[]| |] ?].
Qed.


Section convergence.
Context (source replica : path) (fs0 : filesystem).
Hypothesis Hsep : separate source replica.
Hypothesis Hwf0 : wf fs0.
Hypothesis Hsrc : fs0 !! source = Some Dir.



End convergence.


(** ** A second call *)

Lemma for_each_noop {A : Type} (l : list A) (body : A → M unit) w :
  (∀ x, x ∈ l → body x w = (Done tt, w)) → for_each l body w = (Done tt, w).
Proof.
  induction l as [|x l IH]; intros H; simpl; [done|].
  rewrite (bind_Done _ _ w tt w) by (apply H; left).
  apply IH. intros y Hy. apply H. by right.
Qed.

Section synced.
Context (source replica : path) (fs : filesystem).
Hypothesis Hsep : separate source replica.
Hypothesis Hwf : wf fs.
Hypothesis Hsrc : fs !! source = Some Dir.
Hypothesis Hmir : mirrored source replica fs.

Lemma copy_or_update_synced r file j data meta :
  clean r → is_name file →
  fs !! (source ++ r ++ [file]) = Some (File data meta) →
  copy_or_update (source ++ r) (OS.join replica (rel r)) file (World fs j) =
  (Done tt, World fs j).
Proof.
  intros Hr Hf Hfile. destruct Hsep as (Hcs & Hcr & _).
  destruct Hmir as (Hfiles & _ & _).
  destruct (Hfiles _ _ _ Hfile) as (data' & meta' & Hfile' & Hd).
  rewrite copy_or_update_run. simpl.
  assert (OS.stat fs (OS.join (OS.join replica (rel r)) [file]) =
          Ret (replica ++ r ++ [file], File data' meta')) as Hst
    by (by apply stat_rel_child).
  unfold OS.path_exists, OS.open_rb. rewrite Hst.
  unfold OS.join at 1. rewrite <- app_assoc, (stat_key _ _ _ Hwf Hfile).
  by rewrite bool_decide_eq_true_2.
Qed.

Lemma forward_body_synced r entries j :
  clean r → OS.scandir fs (source ++ r) = Ret entries →
  forward_body source replica (source ++ r)
    (filter OS.entry_is_dir entries).*1
    (filter (λ e, negb (OS.entry_is_dir e)) entries).*1 (World fs j) =
  (Done tt, World fs j).
Proof.
  intros Hr Hscan. pose proof Hsep as (Hcs & Hcr & _).
  assert (clean (source ++ r)) as Hc by (by apply clean_app).
  pose proof (listing_top _ _ _ Hc Hscan) as Hdir.
  rewrite forward_body_run. simpl. rewrite relpath_app by done.
  assert (OS.path_exists fs (OS.join replica (rel r)) = true) as ->.
  { apply path_exists_rel; [done..|]. destruct Hmir as (_ & Hdirs & _).
    destruct (Hdirs _ Hdir) as (e & He & Hd). exists e. split; [done|].
    intros ->. apply Hd. by left. }
  apply for_each_noop. intros x Hx.
  apply (elem_of_nondirs _ _ _ Hc Hscan) in Hx as (data & meta & Hx).
  rewrite <- app_assoc in Hx.
  apply (copy_or_update_synced r x j data meta); try done.
  eapply (wf_parent _ Hwf (source ++ r)). rewrite <- app_assoc. eauto.
Qed.

Lemma reverse_body_synced r entries j :
  clean r → OS.scandir fs (replica ++ r) = Ret entries →
  reverse_body source replica (replica ++ r)
    (filter OS.entry_is_dir entries).*1
    (filter (λ e, negb (OS.entry_is_dir e)) entries).*1 (World fs j) =
  (Done tt, World fs j).
Proof.
  intros Hr Hscan. pose proof Hsep as (Hcs & Hcr & _).
  assert (clean (replica ++ r)) as Hc by (by apply clean_app).
  pose proof (listing_top _ _ _ Hc Hscan) as Hdir.
  destruct Hmir as (_ & _ & Horph).
  rewrite reverse_body_run. simpl. rewrite relpath_app by done.
  assert (OS.path_exists fs (OS.join source (rel r)) = true) as ->.
  { apply path_exists_rel; [done..|].
    destruct (Horph r) as [e He]; [eauto|]. exists e. split; [done|].
    intros ->. rewrite app_nil_r in He. congruence. }
  apply for_each_noop. intros x Hx.
  apply (elem_of_nondirs _ _ _ Hc Hscan) in Hx as (data & meta & Hx).
  rewrite <- app_assoc in Hx.
  rewrite (remove_orphan_spec source replica r x data meta); try done.
  - simpl. rewrite decide_True; [done|]. apply Horph. eauto.
  - eapply (wf_parent _ Hwf (replica ++ r)). rewrite <- app_assoc. eauto.
Qed.

(** Nothing to do: no event, no change. *)
Lemma walk_synced root body j fuel :
  fs !! root = Some Dir →
  (∀ r entries, clean r → OS.scandir fs (root ++ r) = Ret entries →
     body (root ++ r) (filter OS.entry_is_dir entries).*1
       (filter (λ e, negb (OS.entry_is_dir e)) entries).*1 (World fs j) =
     (Done tt, World fs j)) →
  (size fs < fuel)%nat →
  Lib.walk fuel root body (World fs j) = (Done tt, World fs j).
Proof.
  intros Hroot Hbody Hfuel. unfold Lib.walk.
  set (Inv := λ (stack : list path) (w : world),
         w = World fs j ∧
         Forall (λ s, s ∈ dom fs ∧ ∃ r, s = root ++ r ∧ clean r) stack).
  assert (match Lib.walk_loop fuel [root] body (World fs j) with
          | (Done _, w') => Inv [] w'
          | (Raised _, w') => False
          | (OutOfFuel, _) => False
          end) as Hrun.
  { apply (walk_loop_total (dom fs) Inv (λ _, False)).
    - intros stack w [_ Hstack]. eapply Forall_impl; [exact Hstack|]. by intros s [? _].
    - intros top rest w e [-> Hstack] _. split; [done|].
      by apply Forall_cons in Hstack as [_ ?].
    - intros top rest w entries [-> Hstack] Hscan.
      apply Forall_cons in Hstack as [(Htop & r & -> & Hr) Hstack].
      assert (clean (root ++ r)) as Hc.
      { apply (wf_lookup_clean fs); [done|]. by apply elem_of_dom. }
      split; [by eapply NoDup_dirs|]. simpl in Hscan.
      rewrite (Hbody r entries Hr Hscan). split; [done|].
      apply Forall_app. split; [|done].
      apply Forall_fmap, Forall_forall. intros d Hd. simpl.
      apply (elem_of_dirs _ _ _ Hc Hscan) in Hd. split.
      + apply elem_of_dom. eauto.
      + exists (r ++ [d]). unfold OS.join. rewrite <- app_assoc. split; [done|].
        apply clean_snoc; [done|]. eapply (wf_parent _ Hwf (root ++ r)); eauto.
    - split; [done|]. constructor; [|constructor]. split; [apply elem_of_dom; eauto|].
      exists []. split; [by rewrite app_nil_r|constructor].
    - done.
    - pose proof (pending_size (dom fs) [root]). rewrite size_dom in *. lia. }
  destruct (Lib.walk_loop fuel [root] body _) as [[[]|e|] w1]; [|done..].
  by destruct Hrun as [-> _].
Qed.

Lemma sync_folders_synced j fuel :
  (size fs < fuel)%nat →
  sync_folders source replica fuel (World fs j) = (Done tt, World fs j).
Proof.
  intros Hfuel. rewrite sync_folders_run. unfold forward_pass, reverse_pass.
  rewrite walk_synced; [|done| |done].
  - apply walk_synced; [| |done].
    + destruct Hmir as (_ & Hdirs & _).
      destruct (Hdirs [] ) as (e & He & Hd); [by rewrite app_nil_r|].
      rewrite app_nil_r in He. rewrite He. f_equal. apply Hd. by left.
    + intros. by apply reverse_body_synced.
  - intros. by apply forward_body_synced.
Qed.

End synced.


(** * Concrete trees *)

(** ** MD5 test vectors (RFC 1321, appendix A.5) *)

Definition ascii_bytes (s : string) : list byte := String.list_byte_of_string s.

Example md5_of_empty : md5_of [] = "d41d8cd98f00b204e9800998ecf8427e".
Proof. vm_compute. reflexivity. Qed.

Example md5_of_abc : md5_of (ascii_bytes "abc") = "900150983cd24fb0d6963f7d28e17f72".
Proof. vm_compute. reflexivity. Qed.

Example md5_of_message_digest :
  md5_of (ascii_bytes "message digest") = "f96b697d7cb7938d525a2f31aaf161d0".
Proof. vm_compute. reflexivity. Qed.

Example md5_of_alphabet :
  md5_of (ascii_bytes "abcdefghijklmnopqrstuvwxyz") = "c3fcd3d76192e4007dfb496cca67e13b".
Proof. vm_compute. reflexivity. Qed.

(** A file longer than one chunk of 4096 bytes. *)
Example md5_of_5000_bytes :
  md5_of (replicate 5000 "a"%byte) = "7aaa7dec709fa4fa82f3746abfd80bdb".
Proof. vm_compute. reflexivity. Qed.

(** Bytes written in hexadecimal. *)
Definition nibble (a : ascii) : Z :=
  let n := Z.of_N (N_of_ascii a) in
  if n <? 58 then n - 48 else n - 87.

Fixpoint from_hex (s : string) : list byte :=
  match s with
  | String a (String b s') => MD5.byte_of_Z (16 * nibble a + nibble b) :: from_hex s'
  | _ => []
  end.

(** The two 128-byte messages of Wang and Yu (2005): they differ in six
    bytes and have the same MD5 digest. *)
Definition collision_a : list byte := from_hex
  ("d131dd02c5e6eec4693d9a0698aff95c2fcab58712467eab4004583eb8fb7f89" ++
   "55ad340609f4b30283e488832571415a085125e8f7cdc99fd91dbdf280373c5b" ++
   "d8823e3156348f5bae6dacd436c919c6dd53e2b487da03fd02396306d248cda0" ++
   "e99f33420f577ee8ce54b67080a80d1ec69821bcb6a8839396f9652b6ff72a70").

Definition collision_b : list byte := from_hex
  ("d131dd02c5e6eec4693d9a0698aff95c2fcab50712467eab4004583eb8fb7f89" ++
   "55ad340609f4b30283e4888325f1415a085125e8f7cdc99fd91dbd7280373c5b" ++
   "d8823e3156348f5bae6dacd436c919c6dd53e23487da03fd02396306d248cda0" ++
   "e99f33420f577ee8ce54b67080280d1ec69821bcb6a8839396f965ab6ff72a70").

Example md5_collision :
  collision_a ≠ collision_b ∧
  length collision_a = length collision_b ∧
  md5_of collision_a = md5_of collision_b ∧
  md5_of collision_a = "79054025255fb1a26e4bc422aef54eb4".
Proof. split; [|by vm_compute]. intros H. vm_compute in H. discriminate. Qed.

(** ** Trees *)

Definition text (s : string) : entry := File (ascii_bytes s) (Stat 420 0).

(** The scenario of the specification: [docs/readme.txt] changed,
    [old.log] gone from the source. *)
Definition scenario : gmap (list string) entry := list_to_map
  [ ([], Dir); (["s"], Dir); (["r"], Dir);
    (["s"; "docs"], Dir); (["s"; "docs"; "readme.txt"], text "v1");
    (["s"; "images"], Dir);
    (["r"; "docs"], Dir); (["r"; "docs"; "readme.txt"], text "v0");
    (["r"; "images"], Dir); (["r"; "old.log"], text "x") ].

Definition scenario_synced : gmap (list string) entry := list_to_map
  [ ([], Dir); (["s"], Dir); (["r"], Dir);
    (["s"; "docs"], Dir); (["s"; "docs"; "readme.txt"], text "v1");
    (["s"; "images"], Dir);
    (["r"; "docs"], Dir); (["r"; "docs"; "readme.txt"], text "v1");
    (["r"; "images"], Dir) ].

(** The events the specification expects, and no other. *)
Example scenario_run :
  sync_folders ["s"] ["r"] 4 (World scenario []) =
  (Done tt,
   World scenario_synced
     [ FileCopied ["s"; "docs"; "readme.txt"] ["r"; "docs"; "readme.txt"];
       FileRemoved ["r"; "old.log"] ]).
Proof. vm_compute. reflexivity. Qed.

Lemma scenario_wf : wf scenario.
Proof. apply (bool_decide_unpack _). vm_compute. exact I. Qed.







Lemma scenario_separate : separate ["s"] ["r"].
Proof. apply (bool_decide_unpack _). vm_compute. exact I. Qed.


(** C2, witness: the update detection of the specification ("hello" against
    "world": same size, different bytes). *)
Definition hello_world : gmap (list string) entry := list_to_map
  [ ([], Dir); (["s"], Dir); (["r"], Dir);
    (["s"; "a.txt"], text "hello"); (["r"; "a.txt"], text "world") ].






(** C5, as stated, fails: the source has the files [a] and [b], the replica
    a directory [b].  Reading [replica/b] for its digest raises; the call ends
    there, nothing is logged, and [a], which the replica lacks, is not
    copied. *)
Definition file_against_dir : gmap (list string) entry := list_to_map
  [ ([], Dir); (["s"], Dir); (["r"], Dir);
    (["s"; "a"], text "x"); (["s"; "b"], text "y"); (["r"; "b"], Dir) ].






(** C8, witness: the scenario, run by [main] with an interval of three
    seconds. *)
Definition scenario_events : list event :=
  [ FileCopied ["s"; "docs"; "readme.txt"] ["r"; "docs"; "readme.txt"];
    FileRemoved ["r"; "old.log"] ].







(** * Further properties of the script *)

(** ** [calculate_md5]: the chunks and the digest *)

Lemma absorb_snd n : ∀ c bs, (MD5.absorb n c bs).2 = drop (64 * n) bs.
Proof.
  induction n as [|n IH]; intros c bs; simpl.
  - by rewrite drop_0.
  - rewrite IH, drop_drop. f_equal. lia.
Qed.

Lemma absorb_add n m : ∀ c bs,
  MD5.absorb (n + m) c bs =
  MD5.absorb m (MD5.absorb n c bs).1 (MD5.absorb n c bs).2.
Proof.
  induction n as [|n IH]; intros c bs; simpl; [done|]. apply IH.
Qed.

Lemma absorb_app n : ∀ c bs more,
  (64 * n ≤ length bs)%nat →
  MD5.absorb n c (bs ++ more) =
  ((MD5.absorb n c bs).1, (MD5.absorb n c bs).2 ++ more).
Proof.
  induction n as [|n IH]; intros c bs more Hlen; simpl; [done|].
  rewrite take_app_le, drop_app_le by lia.
  apply IH. rewrite length_drop. lia.
Qed.

Lemma update_eq s data :
  let buf := MD5.pending s ++ data in
  let r := MD5.absorb (length buf / 64) (MD5.chaining s) buf in
  MD5.update s data = MD5.State r.1 r.2 (MD5.seen s + Z.of_nat (length data)).
Proof. intros buf r. unfold MD5.update. fold buf. fold r. by destruct r. Qed.

(** Feeding [a] and then [b] is feeding [a ++ b]. *)
Lemma update_app s a b :
  MD5.update (MD5.update s a) b = MD5.update s (a ++ b).
Proof.
  rewrite (update_eq s a), (update_eq s (a ++ b)), update_eq. cbv zeta.
  cbn [MD5.pending MD5.chaining MD5.seen].
  set (buf := MD5.pending s ++ a).
  set (n1 := (length buf / 64)%nat).
  set (r := MD5.absorb n1 (MD5.chaining s) buf).
  pose proof (absorb_snd n1 (MD5.chaining s) buf) as Hrest. fold r in Hrest.
  assert (64 * n1 ≤ length buf)%nat as Hle.
  { unfold n1. pose proof (Nat.div_mod_eq (length buf) 64). lia. }
  assert (length r.2 = (length buf - 64 * n1)%nat) as Hr1
    by (rewrite Hrest, length_drop; lia).
  assert ((length (MD5.pending s ++ a ++ b) / 64)%nat =
          (n1 + length (r.2 ++ b) / 64)%nat) as ->.
  { rewrite app_assoc. fold buf. rewrite !length_app, Hr1.
    replace (length buf + length b)%nat
      with ((length buf - 64 * n1 + length b) + n1 * 64)%nat by lia.
    rewrite Nat.div_add by lia. lia. }
  rewrite absorb_add. rewrite (app_assoc (MD5.pending s)). fold buf.
  rewrite (absorb_app n1 _ buf b) by done. fold r. cbn [fst snd].
  f_equal. rewrite length_app. lia.
Qed.

(** A hash object that keeps fewer than 64 bytes for the next block, as
    every object made by [hashlib.md5()] and [update] does. *)
Definition buffered (s : MD5.state) : Prop := (length (MD5.pending s) < 64)%nat.

Lemma buffered_new : buffered MD5.new.
Proof. unfold buffered. simpl. lia. Qed.

Lemma buffered_update s data : buffered (MD5.update s data).
Proof.
  unfold buffered. rewrite update_eq. cbv zeta. cbn [MD5.pending].
  set (buf := MD5.pending s ++ data).
  rewrite absorb_snd, length_drop.
  pose proof (Nat.div_mod_eq (length buf) 64).
  pose proof (Nat.mod_upper_bound (length buf) 64). lia.
Qed.

Lemma update_nil s : buffered s → MD5.update s [] = s.
Proof.
  intros Hs. rewrite update_eq. cbv zeta. rewrite app_nil_r.
  rewrite Nat.div_small by done. destruct s as [c p n]. cbn. f_equal. lia.
Qed.

(** The loop of [calculate_md5] hands the whole file to the hash object. *)
Lemma read_chunks_update rounds : ∀ f hash_md5,
  buffered hash_md5 → (length f < rounds)%nat →
  read_chunks rounds f hash_md5 = MD5.update hash_md5 f.
Proof.
  induction rounds as [|rounds IH]; intros f h Hh Hlen; [lia|].
  simpl. destruct (take 4096 f) as [|b chunk] eqn:Hchunk.
  - destruct f; [|done]. by rewrite update_nil.
  - rewrite <- Hchunk. rewrite IH.
    + by rewrite update_app, take_drop.
    + apply buffered_update.
    + rewrite length_drop. destruct f; [done|]. simpl in *. lia.
Qed.

Lemma md5_of_update data : md5_of data = MD5.hexdigest (MD5.update MD5.new data).
Proof.
  unfold md5_of. rewrite read_chunks_update; [done|apply buffered_new|lia].
Qed.

Lemma foldl_update chunks : ∀ s,
  buffered s → foldl MD5.update s chunks = MD5.update s (concat chunks).
Proof.
  induction chunks as [|chunk chunks IH]; intros s Hs; simpl.
  - by rewrite update_nil.
  - rewrite IH by apply buffered_update. by rewrite update_app.
Qed.

(** X1.  [calculate_md5] digests the whole file: what it returns for a
    regular file is the MD5 digest of all its bytes fed to the hash object
    in one piece - the reads of 4096 bytes and the empty read that ends the
    loop lose and add nothing - and any other way of cutting the file into
    chunks gives the same digest.  The world is left as it was. *)
Theorem calculate_md5_digests_whole_file file_path w data :
  OS.open_rb (files w) file_path = Ret data →
  calculate_md5 file_path w = (Done (MD5.hexdigest (MD5.update MD5.new data)), w) ∧
  ∀ chunks, concat chunks = data →
    MD5.hexdigest (foldl MD5.update MD5.new chunks) =
    MD5.hexdigest (MD5.update MD5.new data).
Proof.
  intros Hopen. split.
  - by rewrite calculate_md5_run, Hopen, md5_of_update.
  - intros chunks <-. by rewrite foldl_update by apply buffered_new.
Qed.

(** *** The form of the digest *)

Definition is_hex_digit (a : ascii) : Prop :=
  a ∈ String.list_ascii_of_string "0123456789abcdef".

#[global] Instance is_hex_digit_dec a : Decision (is_hex_digit a).
Proof. unfold is_hex_digit. apply _. Defined.

Lemma hex_of_byte_digits b rest :
  ∃ hi lo, MD5.hex_of_byte b rest = String hi (String lo rest) ∧
           is_hex_digit hi ∧ is_hex_digit lo.
Proof.
  unfold MD5.hex_of_byte. do 2 eexists. split; [done|].
  destruct b; split; apply (bool_decide_unpack _); vm_compute; exact I.
Qed.

Lemma hexdigest_form bs :
  String.length (foldr MD5.hex_of_byte EmptyString bs) = (2 * length bs)%nat ∧
  Forall is_hex_digit
    (String.list_ascii_of_string (foldr MD5.hex_of_byte EmptyString bs)).
Proof.
  induction bs as [|b bs [IH1 IH2]]; [by split; [|constructor]|].
  cbn [foldr]. destruct (hex_of_byte_digits b (foldr MD5.hex_of_byte EmptyString bs))
    as (hi & lo & -> & Hhi & Hlo).
  split.
  - cbn [String.length length]. rewrite IH1. lia.
  - cbn [String.list_ascii_of_string]. apply Forall_cons. split; [done|].
    apply Forall_cons. by split.
Qed.

Lemma length_bytes_of_word n w : length (MD5.bytes_of_word n w) = n.
Proof. revert w. induction n as [|n IH]; intros w; simpl; [done|]. by rewrite IH. Qed.

Lemma length_digest s : length (MD5.digest s) = 16%nat.
Proof.
  unfold MD5.digest. destruct (MD5.absorb _ _ _).1 as [a b c d].
  by rewrite !length_app, !length_bytes_of_word.
Qed.

(** X2.  Whenever [calculate_md5] returns, what it returns is a string of 32
    characters, each a digit or a lower-case letter from [a] to [f]. *)
Theorem calculate_md5_returns_32_hex_digits file_path w digest w' :
  calculate_md5 file_path w = (Done digest, w') →
  String.length digest = 32%nat ∧
  Forall is_hex_digit (String.list_ascii_of_string digest).
Proof.
  rewrite calculate_md5_run. destruct (OS.open_rb _ _) as [data|e]; [|done].
  intros [= <- _]. unfold md5_of, MD5.hexdigest.
  destruct (hexdigest_form (MD5.digest (read_chunks (S (length data)) data MD5.new)))
    as [H1 H2].
  split; [|done]. by rewrite H1, length_digest.
Qed.

(** *** What [calculate_md5] raises *)



(** X1, witness: a file of 5000 bytes, read in two chunks. *)
Definition big_file : gmap (list string) entry := list_to_map
  [ ([], Dir); (["s"], Dir);
    (["s"; "big"], File (replicate 5000 "a"%byte) (Stat 420 0)) ].

Lemma big_file_digested_whole :
  calculate_md5 ["s"; "big"] (World big_file []) =
    (Done (MD5.hexdigest (MD5.update MD5.new (replicate 5000 "a"%byte))),
     World big_file []) ∧
  ∀ chunks, concat chunks = replicate 5000 "a"%byte →
    MD5.hexdigest (foldl MD5.update MD5.new chunks) =
    MD5.hexdigest (MD5.update MD5.new (replicate 5000 "a"%byte)).
Proof.
  apply (calculate_md5_digests_whole_file ["s"; "big"] (World big_file [])).
  vm_compute. reflexivity.
Defined.

(** X2, witness. *)
Lemma hello_digest_form :
  String.length "5d41402abc4b2a76b9719d911017c592" = 32%nat ∧
  Forall is_hex_digit (String.list_ascii_of_string "5d41402abc4b2a76b9719d911017c592").
Proof.
  apply (calculate_md5_returns_32_hex_digits ["s"; "a.txt"] (World hello_world [])
           "5d41402abc4b2a76b9719d911017c592" (World hello_world [])).
  vm_compute. reflexivity.
Defined.


(** ** The reverse pass, file by file *)

(** X4.  The step of the reverse pass for one file of the replica directory
    [replica/r]: the file is removed, with one [FileRemoved], exactly when
    nothing exists at the same relative path under the source; if anything
    is there - a regular file or a directory - the replica file stays and
    nothing is logged.  The step never raises. *)
Theorem orphan_file_removed_iff_source_missing source replica r file data meta w :
  let dirpath := replica ++ r in
  let source_dir := OS.join source (OS.relpath dirpath replica) in
  wf (files w) → clean source → clean replica → clean r → is_name file →
  files w !! (replica ++ r ++ [file]) = Some (File data meta) →
  ∃ w', remove_orphan dirpath source_dir file w = (Done tt, w') ∧
    (files w !! (source ++ r ++ [file]) = None →
       files w' = delete (replica ++ r ++ [file]) (files w) ∧
       journal w' = journal w ++ [FileRemoved (OS.join dirpath [file])]) ∧
    (is_Some (files w !! (source ++ r ++ [file])) → w' = w).
Proof.
  intros dirpath source_dir Hwf Hs Hr Hcr Hf Hk. unfold source_dir, dirpath.
  rewrite relpath_app by done.
  rewrite (remove_orphan_spec source replica r file data meta w) by done.
  destruct (decide (is_Some (files w !! (source ++ r ++ [file])))) as [Hsome|Hnone].
  - exists w. split; [done|]. split; [|done]. intros Hn. rewrite Hn in Hsome.
    by destruct Hsome.
  - eexists. split; [done|]. split; [done|]. intros Hsome. by destruct Hnone.
Qed.

(** X4, witness: [old.log] of the scenario. *)
Lemma old_log_is_removed :
  ∃ w', remove_orphan ["r"] (OS.join ["s"] (OS.relpath ["r"] ["r"])) "old.log"
          (World scenario []) = (Done tt, w') ∧
    (scenario !! ["s"; "old.log"] = None →
       files w' = delete ["r"; "old.log"] scenario ∧
       journal w' = [FileRemoved ["r"; "old.log"]]) ∧
    (is_Some (scenario !! ["s"; "old.log"]) → w' = World scenario []).
Proof.
  apply (orphan_file_removed_iff_source_missing ["s"] ["r"] [] "old.log"
           (ascii_bytes "x") (Stat 420 0) (World scenario [])).
  - apply (bool_decide_unpack _). vm_compute. exact I.
  - apply (bool_decide_unpack _). vm_compute. exact I.
  - apply (bool_decide_unpack _). vm_compute. exact I.
  - constructor.
  - apply (bool_decide_unpack _). vm_compute. exact I.
  - vm_compute. reflexivity.
Defined.

(** ** Where the content of the files comes from *)

(** Every regular file of [fs] is, with its bytes, mode and time, a regular
    file of [fs0]. *)
Definition no_new_content (fs0 fs : filesystem) : Prop :=
  ∀ k data meta, fs !! k = Some (File data meta) →
    ∃ k', fs0 !! k' = Some (File data meta).




Section no_new_content.
Context (fs0 : filesystem).

Let I (w : world) : Prop := no_new_content fs0 (files w).






End no_new_content.



(** ** Every change is logged *)

















(** ** What the replica holds after a call *)


Section exact_copies.
Context (source replica : path) (fs0 : filesystem).
Hypothesis Hsep : separate source replica.
Hypothesis Hwf0 : wf fs0.








End exact_copies.






(** ** A replica that is already a mirror *)

(** X8.  A replica that already mirrors the source is left alone: for a
    well-formed file system, a source root that is a directory and clean
    roots neither of which lies in the other, if every file of the source
    has a counterpart with the same MD5 digest, every directory has one, and
    the replica has nothing else, then [sync_folders], given more rounds
    than the file system has entries, returns without an event and without a
    change.  Since only digests are compared, a difference in mode or
    modification time alone is never repaired. *)
Theorem mirror_is_left_alone source replica fuel fs j :
  wf fs → separate source replica → fs !! source = Some Dir →
  mirrored source replica fs →
  (size fs < fuel)%nat →
  sync_folders source replica fuel (World fs j) = (Done tt, World fs j).
Proof. intros. by apply sync_folders_synced. Qed.

(** X8, witness: the same bytes under another mode and an older time. *)
Definition touched : gmap (list string) entry := list_to_map
  [ ([], Dir); (["s"], Dir); (["r"], Dir);
    (["s"; "a"], File (ascii_bytes "x") (Stat 420 100));
    (["r"; "a"], File (ascii_bytes "x") (Stat 384 50)) ].

Lemma touched_is_a_mirror : mirrored ["s"] ["r"] touched.
Proof.
  split_and!.
  - intros q data meta H. apply elem_of_list_to_map_2 in H.
    rewrite !elem_of_cons, elem_of_nil in H. simpl in H.
    destruct H as [H|[H|[H|[H|[H|[]]]]]]; simplify_eq.
    exists (ascii_bytes "x"), (Stat 384 50). split; [vm_compute; reflexivity|done].
  - intros q H. apply elem_of_list_to_map_2 in H.
    rewrite !elem_of_cons, elem_of_nil in H. simpl in H.
    destruct H as [H|[H|[H|[H|[H|[]]]]]]; simplify_eq.
    exists Dir. split; [vm_compute; reflexivity|done].
  - intros q [e H]. apply elem_of_list_to_map_2 in H.
    rewrite !elem_of_cons, elem_of_nil in H. simpl in H.
    destruct H as [H|[H|[H|[H|[H|[]]]]]]; simplify_eq; eexists; vm_compute; reflexivity.
Qed.

Lemma metadata_is_not_repaired :
  sync_folders ["s"] ["r"] 6 (World touched []) = (Done tt, World touched []).
Proof.
  apply (mirror_is_left_alone ["s"] ["r"] 6 touched []).
  - apply (bool_decide_unpack _). vm_compute. exact I.
  - apply (bool_decide_unpack _). vm_compute. exact I.
  - vm_compute. reflexivity.
  - apply touched_is_a_mirror.
  - vm_compute. lia.
Defined.

(** ** The reverse pass raises nothing *)

(** X10.  For a well-formed file system, a source root that is a directory
    and clean roots neither of which lies in the other: once the forward pass
    has returned, the reverse pass, given enough rounds, returns too.  It
    never calls [os.remove] on a directory or on a path that is gone, nor
    [shutil.rmtree] on something that is not a directory: an exception of
    [sync_folders] can only come from the forward pass, where nothing is
    removed. *)
Theorem reverse_pass_raises_nothing source replica fuel w w1 :
  wf (files w) → separate source replica → files w !! source = Some Dir →
  forward_pass source replica fuel w = (Done tt, w1) →
  ∃ n, ∀ fuel', (n ≤ fuel')%nat →
    ∃ w2, reverse_pass source replica fuel' w1 = (Done tt, w2).
Proof.
  intros Hwf Hsep Hsrc Hrun. destruct w as [fs j]. simpl in Hwf, Hsrc.
  pose proof (forward_pass_total source replica fs Hsep Hwf Hsrc
                (fuel `max` S (size fs)) j) as Hfwd.
  assert (forward_pass source replica (fuel `max` S (size fs)) (World fs j) =
          (Done tt, w1)) as E.
  { rewrite <- Hrun. apply walk_loop_more_fuel; [lia|].
    unfold forward_pass, Lib.walk in Hrun. by rewrite Hrun. }
  rewrite E in Hfwd. destruct Hfwd as [Hfr Hgood]; [lia|]. destruct w1 as [fs1 j1].
  assert (fs1 !! source = Some Dir) as Hsrc1.
  { pose proof (source_unchanged source replica fs Hsep (World fs1 j1) [] Hfr) as H.
    rewrite !app_nil_r in H. simpl in H. congruence. }
  assert (fs1 !! replica = Some Dir) as Hrep1.
  { specialize (Hgood []). unfold good in Hgood. rewrite !app_nil_r in Hgood.
    simpl in Hsrc. rewrite Hsrc in Hgood. destruct Hgood as (e & He & Hd). simpl in He.
    by rewrite (Hd eq_refl) in He. }
  exists (S (size fs1)). intros fuel' Hfuel'.
  destruct (reverse_pass_total source replica fs1 Hsep (proj1 Hfr) Hsrc1 Hrep1 fuel' j1)
    as (w2 & Hw2 & _); [lia|]. eauto.
Qed.

(** X10, witness: the scenario. *)
Lemma scenario_reverse_pass_returns :
  ∃ n, ∀ fuel', (n ≤ fuel')%nat →
    ∃ w2, reverse_pass ["s"] ["r"] fuel'
            (forward_pass ["s"] ["r"] 4 (World scenario [])).2 = (Done tt, w2).
Proof.
  apply (reverse_pass_raises_nothing ["s"] ["r"] 4 (World scenario [])).
  - apply (bool_decide_unpack _). vm_compute. exact I.
  - apply (bool_decide_unpack _). vm_compute. exact I.
  - vm_compute. reflexivity.
  - vm_compute. reflexivity.
Defined.

(** ** The driver: a negative interval, and the count of the cycles *)

(** X11.  [main] with a negative interval: the first synchronisation is
    done and its end is logged, then [time.sleep] raises [ValueError]; no
    second synchronisation is started and the process exits with status 1. *)
Theorem negative_interval_stops_main fuel args w w1 :
  arg_interval args < 0 →
  sync_folders (arg_source args) (arg_replica args) (S fuel)
    (World (files w) (journal w ++ [SyncStarting 1 5])) = (Done tt, w1) →
  main (S fuel) args w =
    (Raised ValueError,
     World (files w1) (journal w1 ++ [SyncCompleted 1 (arg_interval args)])) ∧
  exit_status (main (S fuel) args w).1 = Some 1.
Proof.
  intros Hneg Hsync.
  assert (main (S fuel) args w =
          (Raised ValueError,
           World (files w1) (journal w1 ++ [SyncCompleted 1 (arg_interval args)]))) as E.
  { unfold main. apply bind_Raised.
    rewrite main_loop_step by done. change (0 + 1) with 1. rewrite Hsync.
    by rewrite (proj2 (Z.ltb_lt _ _) Hneg). }
  by rewrite E.
Qed.

(** X11, witness: the scenario with an interval of -1. *)
Lemma scenario_with_negative_interval :
  main 5 (Args ["s"] ["r"] (-1) ["log"]) (World scenario []) =
    (Raised ValueError,
     World scenario_synced ([SyncStarting 1 5] ++ scenario_events ++ [SyncCompleted 1 (-1)])) ∧
  exit_status (main 5 (Args ["s"] ["r"] (-1) ["log"]) (World scenario [])).1 = Some 1.
Proof.
  apply (negative_interval_stops_main 4 (Args ["s"] ["r"] (-1) ["log"])
           (World scenario [])
           (World scenario_synced ([SyncStarting 1 5] ++ scenario_events))).
  - simpl. lia.
  - vm_compute. reflexivity.
Defined.

Definition is_start (e : event) : Prop :=
  match e with SyncStarting _ _ => True | _ => False end.

Definition is_sleep (e : event) : Prop :=
  match e with Slept _ => True | _ => False end.

#[global] Instance is_start_dec e : Decision (is_start e).
Proof. destruct e; apply _. Defined.

#[global] Instance is_sleep_dec e : Decision (is_sleep e).
Proof. destruct e; apply _. Defined.

(** Neither pass logs what the driver logs. *)
Lemma sync_folders_journal source replica fuel w :
  ∃ evs, journal (sync_folders source replica fuel w).2 = journal w ++ evs ∧
         filter is_start evs = [] ∧ filter is_sleep evs = [].
Proof.
  assert (∀ evs, Forall (λ e, is_forward_event e ∨ is_reverse_event e) evs →
            filter is_start evs = [] ∧ filter is_sleep evs = []) as Hnone.
  { induction 1 as [|e evs He _ [IH1 IH2]]; [done|].
    rewrite !filter_cons, IH1, IH2.
    by destruct e, He. }
  rewrite sync_folders_run.
  destruct (forward_pass_only_adds source replica fuel w) as [_ (evs1 & Hj1 & H1)].
  destruct (forward_pass source replica fuel w) as [[[]|e|] w1]; simpl in *.
  - destruct (reverse_pass_only_removes source replica fuel w1) as [_ (evs2 & Hj2 & H2)].
    exists (evs1 ++ evs2). split; [by rewrite Hj2, Hj1, app_assoc|].
    apply Hnone. apply Forall_app. split.
    + eapply Forall_impl; [exact H1|]. intros e0 He0. by left.
    + eapply Forall_impl; [exact H2|]. intros e0 He0. by right.
  - exists evs1. split; [done|]. apply Hnone.
    eapply Forall_impl; [exact H1|]. intros e0 He0. by left.
  - exists evs1. split; [done|]. apply Hnone.
    eapply Forall_impl; [exact H1|]. intros e0 He0. by left.
Qed.

Lemma main_loop_journal fuel args : ∀ rounds sync_count w,
  ∃ evs k,
    journal (main_loop rounds fuel args 5 sync_count w).2 = journal w ++ evs ∧
    (sync_count < 5 → sync_count + Z.of_nat k ≤ 5) ∧ (5 ≤ sync_count → k = 0%nat) ∧
    filter is_start evs =
      (λ n, SyncStarting (sync_count + Z.of_nat n) 5) <$> seq 1 k ∧
    (length (filter is_sleep evs) ≤ k)%nat ∧
    Forall (λ e, is_sleep e → e = Slept (arg_interval args)) evs ∧
    ((main_loop rounds fuel args 5 sync_count w).1 = Done tt →
     (sync_count < 5 → sync_count + Z.of_nat k = 5) ∧
     length (filter is_sleep evs) = k).
Proof.
  induction rounds as [|rounds IH]; intros sync_count w.
  - exists [], 0%nat. rewrite app_nil_r.
    split_and!; [|lia|done|done|simpl; lia|done|].
    + simpl. by destruct (sync_count <? 5).
    + simpl. destruct (sync_count <? 5) eqn:E; [done|].
      intros _. split; [|done]. apply Z.ltb_ge in E. lia.
  - destruct (decide (sync_count < 5)) as [Hlt|Hge].
    2: { exists [], 0%nat. rewrite app_nil_r.
         split_and!; [|lia|done|done|simpl; lia|done|].
         - simpl. by rewrite (proj2 (Z.ltb_ge _ _)) by lia.
         - intros _. split; [lia|done]. }
    rewrite main_loop_step by done.
    destruct (sync_folders_journal (arg_source args) (arg_replica args) fuel
                (World (files w) (journal w ++ [SyncStarting (sync_count + 1) 5])))
      as (evs & Hj & Hst & Hsl).
    assert (Forall (λ e, is_sleep e → e = Slept (arg_interval args)) evs) as Hsl'.
    { apply Forall_forall. intros e Hin He.
      assert (e ∈ filter is_sleep evs) as Hin' by (by apply list_elem_of_filter).
      rewrite Hsl in Hin'. by apply elem_of_nil in Hin'. }
    destruct (sync_folders _ _ _ _) as [[[]|e|] w1]; simpl in Hj.
    + destruct (arg_interval args <? 0).
      * exists ([SyncStarting (sync_count + 1) 5] ++ evs ++
                [SyncCompleted (sync_count + 1) (arg_interval args)]), 1%nat.
        simpl. rewrite Hj, <- !app_assoc. split_and!; try done; try lia.
        -- rewrite filter_cons_True by done. rewrite filter_app, Hst.
           by rewrite filter_cons_False by (by intros []).
        -- rewrite filter_cons_False by (by intros []). rewrite filter_app, Hsl.
           rewrite filter_cons_False by (by intros []). simpl. lia.
        -- constructor; [by intros []|]. apply Forall_app. split; [done|].
           constructor; [by intros []|constructor].
      * destruct (IH (sync_count + 1)
                    (World (files w1)
                       ((journal w1 ++ [SyncCompleted (sync_count + 1) (arg_interval args)])
                          ++ [Slept (arg_interval args)])))
          as (evs' & k & Hj' & Hk & Hk' & Hst' & Hsl1 & Hsl2 & Hdone).
        assert (filter is_sleep
                  ([SyncStarting (sync_count + 1) 5] ++ evs ++
                   [SyncCompleted (sync_count + 1) (arg_interval args);
                    Slept (arg_interval args)] ++ evs') =
                Slept (arg_interval args) :: filter is_sleep evs') as Hsleeps.
        { simpl app. rewrite filter_cons_False by (by intros []). rewrite filter_app, Hsl.
          rewrite filter_cons_False by (by intros []).
          by rewrite filter_cons_True by done. }
        exists ([SyncStarting (sync_count + 1) 5] ++ evs ++
                [SyncCompleted (sync_count + 1) (arg_interval args);
                 Slept (arg_interval args)] ++ evs'), (S k).
        split_and!.
        -- rewrite Hj'. simpl. rewrite Hj, <- !app_assoc. done.
        -- intros _. destruct (decide (sync_count + 1 < 5)); [|rewrite Hk' by lia]; lia.
        -- lia.
        -- simpl app. rewrite filter_cons_True by done. rewrite filter_app, Hst.
           rewrite !filter_cons_False by (by intros []). rewrite Hst'.
           simpl. f_equal. rewrite <- (fmap_S_seq 1 k), <- list_fmap_compose.
           apply list_fmap_ext. intros _ n _. simpl. f_equal. lia.
        -- rewrite Hsleeps. simpl. lia.
        -- constructor; [by intros []|]. apply Forall_app. split; [done|].
           constructor; [by intros []|]. by constructor.
        -- intros Hd. destruct (Hdone Hd) as [Hk5 Hsl5]. split.
           ++ intros _. destruct (decide (sync_count + 1 < 5)); [|rewrite Hk' by lia]; lia.
           ++ rewrite Hsleeps. simpl. by rewrite Hsl5.
    + exists ([SyncStarting (sync_count + 1) 5] ++ evs), 1%nat.
      simpl. rewrite Hj, <- !app_assoc. split_and!; try done; try lia.
      * by rewrite filter_cons_True, Hst by done.
      * rewrite filter_cons_False by (by intros []). rewrite Hsl. simpl. lia.
      * constructor; [by intros []|done].
    + exists ([SyncStarting (sync_count + 1) 5] ++ evs), 1%nat.
      simpl. rewrite Hj, <- !app_assoc. split_and!; try done; try lia.
      * by rewrite filter_cons_True, Hst by done.
      * rewrite filter_cons_False by (by intros []). rewrite Hsl. simpl. lia.
      * constructor; [by intros []|done].
Qed.

(** X12.  Whatever the arguments, the trees and the way it ends, [main]
    starts at most five synchronisations, announced in the log as 1/5, 2/5,
    ... in this order; it sleeps at most once per synchronisation started,
    each time for [interval] seconds.  When it returns, it has started
    exactly five and slept exactly five times, once more than there are gaps
    between five cycles, and the last line logged is the closing one. *)
Theorem main_starts_at_most_five_syncs fuel args w :
  ∃ evs k,
    journal (main fuel args w).2 = journal w ++ evs ∧
    (k ≤ 5)%nat ∧
    filter is_start evs = (λ n, SyncStarting (Z.of_nat n) 5) <$> seq 1 k ∧
    (length (filter is_sleep evs) ≤ k)%nat ∧
    Forall (λ e, is_sleep e → e = Slept (arg_interval args)) evs ∧
    ((main fuel args w).1 = Done tt →
     k = 5%nat ∧ length (filter is_sleep evs) = 5%nat ∧
     last evs = Some ReachedMaximum).
Proof.
  destruct (main_loop_journal fuel args fuel 0 w)
    as (evs & k & Hj & Hk & _ & Hst & Hsl1 & Hsl2 & Hdone).
  unfold main, mbind, M_bind, Lib.logging_info, emit.
  destruct (main_loop fuel fuel args 5 0 w) as [[[]|e|] w1]; simpl in *.
  - exists (evs ++ [ReachedMaximum]), k. rewrite Hj, <- app_assoc.
    assert (filter is_sleep (evs ++ [ReachedMaximum]) = filter is_sleep evs) as Hsleeps.
    { rewrite filter_app. rewrite filter_cons_False by (by intros []).
      by rewrite app_nil_r. }
    split_and!; [done|lia| | | |].
    + rewrite filter_app, Hst. rewrite filter_cons_False by (by intros []).
      by rewrite app_nil_r.
    + by rewrite Hsleeps.
    + apply Forall_app. split; [done|]. constructor; [by intros []|constructor].
    + intros _. destruct (Hdone eq_refl) as [Hk5 Hsl5].
      split_and!; [lia|rewrite Hsleeps; lia|by rewrite last_snoc].
  - exists evs, k. split_and!; [done|lia|done..].
  - exists evs, k. split_and!; [done|lia|done..].
Qed.

(** ** A file on one side, a directory on the other *)

Lemma stat_Err_of_not_exists fs p : OS.path_exists fs p = false → ∃ e, OS.stat fs p = Err e.
Proof. unfold OS.path_exists. destruct (OS.stat fs p); [done|eauto]. Qed.

(** X13.  The forward pass does not repair a conflict of types; it raises.
    For a regular file [source/r/file]: if the replica has a directory at
    that path, the step for the file raises [IsADirectoryError] when it
    opens the directory for its digest; if the replica has a regular file
    where the directory [replica/r] should be, the step raises
    [NotADirectoryError] when [shutil.copy2] opens its target.  In both cases
    nothing is changed, nothing is logged, and the exception ends the call. *)
Theorem type_conflict_raises source replica r file data meta w :
  let dirpath := source ++ r in
  let replica_dir := OS.join replica (OS.relpath dirpath source) in
  wf (files w) → clean source → clean replica → clean r → is_name file →
  files w !! (source ++ r ++ [file]) = Some (File data meta) →
  (files w !! (replica ++ r ++ [file]) = Some Dir →
     copy_or_update dirpath replica_dir file w =
       (Raised (IsADirectoryError (OS.join replica_dir [file])), w)) ∧
  (∀ data' meta', r ≠ [] → files w !! (replica ++ r) = Some (File data' meta') →
     copy_or_update dirpath replica_dir file w =
       (Raised (NotADirectoryError (OS.join replica_dir [file])), w)).
Proof.
  intros dirpath replica_dir Hwf Hs Hr Hcr Hf Hsrc. unfold replica_dir, dirpath.
  rewrite relpath_app by done. rewrite copy_or_update_run. cbv zeta.
  assert (OS.join (source ++ r) [file] = source ++ r ++ [file]) as Esrc
    by (unfold OS.join; by rewrite <- app_assoc).
  split.
  - intros Hdir.
    rewrite (proj2 (path_exists_rel_child _ replica r file Hwf Hr Hcr Hf)) by (by rewrite Hdir).
    rewrite Esrc, (open_rb_key _ _ _ _ Hwf Hsrc).
    unfold OS.open_rb at 1.
    by rewrite (proj2 (stat_rel_child _ replica r file _ Dir Hwf Hr Hcr Hf) (conj eq_refl Hdir)).
  - intros data' meta' Hne Hfile.
    assert (OS.path_exists (files w) (OS.join (OS.join replica (rel r)) [file]) = false)
      as Hex.
    { destruct (OS.path_exists _ _) eqn:E; [|done].
      apply (path_exists_rel_child _ replica r file Hwf Hr Hcr Hf) in E.
      rewrite app_assoc in E. by apply (wf_file_leaf _ _ _ _ _ Hwf Hfile) in E. }
    rewrite Hex. unfold copy_and_log, OS.copy2.
    rewrite (isdir_exists _ _ Hex). unfold OS.copyfile_stat, OS.samefile.
    destruct (stat_Err_of_not_exists _ _ Hex) as [e He].
    rewrite Esrc, (stat_key _ _ _ Hwf Hsrc), He.
    assert (OS.resolve (files w) (OS.join (OS.join replica (rel r)) [file]) =
            Err (NotADirectoryError (OS.join (OS.join replica (rel r)) [file]))) as ->; [|done].
    unfold OS.resolve. rewrite resolve_from_app.
    assert (rel r = r) as -> by (by destruct r).
    rewrite (resolve_from_key _ _ (replica ++ r) Hwf) by (by rewrite Hfile).
    simpl. by rewrite Hfile.
Qed.

(** X13, witness: the file [b] of the source against the directory [b] of
    the replica. *)
Lemma file_against_directory_raises :
  copy_or_update ["s"] (OS.join ["r"] (OS.relpath ["s"] ["s"])) "b"
    (World file_against_dir []) =
  (Raised (IsADirectoryError ["r"; "."; "b"]), World file_against_dir []).
Proof.
  destruct (type_conflict_raises ["s"] ["r"] [] "b" (ascii_bytes "y") (Stat 420 0)
              (World file_against_dir [])) as [H _].
  - apply (bool_decide_unpack _). vm_compute. exact I.
  - apply (bool_decide_unpack _). vm_compute. exact I.
  - apply (bool_decide_unpack _). vm_compute. exact I.
  - constructor.
  - apply (bool_decide_unpack _). vm_compute. exact I.
  - vm_compute. reflexivity.
  - apply H. vm_compute. reflexivity.
Defined.
